(** * DTO generator of kit: a shallow embedding of generator/generate_dto.go

    The development follows the source file top to bottom: the helpers of
    Go's [strings] and [regexp] packages that the generator calls, the field
    classifier ([parseFieldType]), the [jen] code values the generator
    builds, the binding synthesizers ([genBindingFromPB], [genBindingToPB]),
    the recursive walk ([genDTORecursive]) and the entry point ([Generate]).
    Logging calls ([logrus]) have no effect on the generated code and are
    left out. *)

From Stdlib Require Import String Ascii List ZArith Lia Bool.
From stdpp Require Import base option strings list gmap fin_maps.

Import ListNotations.
Local Open Scope string_scope.
Local Open Scope list_scope.

(** ** Go's [strings] package, on byte strings *)

Module strings.

(** [strings.HasPrefix]. *)
Fixpoint HasPrefix (s pre : string) {struct pre} : bool :=
  match pre, s with
  | EmptyString, _ => true
  | String _ _, EmptyString => false
  | String a pre', String b s' => if Ascii.eqb a b then HasPrefix s' pre' else false
  end.

(** [strings.Contains]: [substr] occurs somewhere in [s]. *)
Fixpoint Contains (s substr : string) : bool :=
  HasPrefix s substr ||
  match s with
  | EmptyString => false
  | String _ s' => Contains s' substr
  end.

(** [strings.TrimPrefix]: [s] without the leading [pre], or [s] itself. *)
Fixpoint dropBytes (n : nat) (s : string) : string :=
  match n, s with
  | S n', String _ s' => dropBytes n' s'
  | _, _ => s
  end.

Definition TrimPrefix (s pre : string) : string :=
  if HasPrefix s pre then dropBytes (String.length pre) s else s.

(** [strings.HasSuffix]. *)
Definition HasSuffix (s suf : string) : bool :=
  HasPrefix (dropBytes (String.length s - String.length suf) s) suf
  && (String.length suf <=? String.length s)%nat.

(** [strings.Split] for a non-empty separator: the pieces of [s] between
    the occurrences of [sep], scanned from the left.  [skip] counts the
    bytes of a separator occurrence still to be passed over and [acc] is
    the piece being read. *)
Fixpoint splitFrom (sep : string) (skip : nat) (acc : string) (s : string) : list string :=
  match s with
  | EmptyString => [acc]
  | String c s' =>
      match skip with
      | S k => splitFrom sep k acc s'
      | O =>
          if HasPrefix s sep
          then acc :: splitFrom sep (String.length sep - 1) EmptyString s'
          else splitFrom sep O (acc ++ String c EmptyString) s'
      end
  end.

Definition Split (s sep : string) : list string := splitFrom sep O EmptyString s.

(** [strings.Trim]: all leading and trailing bytes of [cutset] removed. *)
Fixpoint inCutset (c : ascii) (cutset : string) : bool :=
  match cutset with
  | EmptyString => false
  | String d rest => Ascii.eqb c d || inCutset c rest
  end.

Fixpoint TrimLeft (s cutset : string) : string :=
  match s with
  | EmptyString => EmptyString
  | String c s' => if inCutset c cutset then TrimLeft s' cutset else s
  end.

Fixpoint TrimRight (s cutset : string) : string :=
  match s with
  | EmptyString => EmptyString
  | String c s' =>
      match TrimRight s' cutset with
      | EmptyString => if inCutset c cutset then EmptyString else String c EmptyString
      | t => String c t
      end
  end.

Definition Trim (s cutset : string) : string := TrimRight (TrimLeft s cutset) cutset.

End strings.

(** ** The one regular expression of the file

    [getBetweenBrackets] compiles a pattern that reads: an opening bracket,
    any run of bytes that are not brackets (captured), a closing bracket. *)

Module regexp.

Definition lbracket : ascii := "["%char.
Definition rbracket : ascii := "]"%char.

(** The rest of a match once its opening bracket is read: the bytes up
    to and including the first bracket met, when that one is closing. *)
Fixpoint matchTail (s : string) : option string :=
  match s with
  | EmptyString => None
  | String c s' =>
      if Ascii.eqb c rbracket then Some (String c EmptyString)
      else if Ascii.eqb c lbracket then None
      else String c <$> matchTail s'
  end.

(** [re.FindAllString(s, -1)]: the successive leftmost matches, none
    overlapping another. [skip] counts the bytes of the match just found
    that are still to be passed over. *)
Fixpoint findFrom (skip : nat) (s : string) : list string :=
  match s with
  | EmptyString => []
  | String c s' =>
      match skip with
      | S k => findFrom k s'
      | O =>
          if Ascii.eqb c lbracket then
            match matchTail s' with
            | Some m => String c m :: findFrom (String.length m) s'
            | None => findFrom O s'
            end
          else findFrom O s'
      end
  end.

Definition FindAllString (s : string) : list string := findFrom O s.

End regexp.

(** ** Field classifier *)

Definition fieldIsAMap (typeName : string) : bool := strings.Contains typeName "map[".

Definition fieldIsASlice (typeName : string) : bool := strings.Contains typeName "[]".

(** [allMatches[0]] panics on an empty result: [None] stands for that
    run-time panic (index out of range). *)
Definition getBetweenBrackets (s : string) : option string :=
  match regexp.FindAllString s with
  | firstMatch :: _ =>
      let trimLeft := strings.Trim firstMatch "[" in
      let trimRight := strings.Trim trimLeft "]" in
      Some trimRight
  | [] => None
  end.

(** The four results are [(nameNoStar, isSlice, isMap, mapKeyType)];
    [None] is the panic of [parts[1]] or of [getBetweenBrackets]. *)
Definition parseFieldType (typeName : string) : option (string * bool * bool * string) :=
  if fieldIsASlice typeName then
    parts1 ← strings.Split typeName "]" !! 1%nat;
    Some (strings.TrimPrefix parts1 "*", true, false, EmptyString)
  else if fieldIsAMap typeName then
    parts1 ← strings.Split typeName "]" !! 1%nat;
    mapKeyType ← getBetweenBrackets typeName;
    Some (strings.TrimPrefix parts1 "*", false, true, mapKeyType)
  else
    Some (strings.TrimPrefix typeName "*", false, false, EmptyString).

(** ** Collaborators outside the file

    [parser.Struct] and [parser.NamedTypeValue] are declared in package
    [parser]; the generator reads a struct's name and its fields, and of a
    field its name and the text of its type. *)

Module parser.

Record NamedTypeValue := { VarName : string; VarType : string }.

Record Struct := { Name : string; Vars : list NamedTypeValue }.

Record File := { Structures : list Struct }.

End parser.

(** ** [jen] code values

    Every [jen] constructor returns a statement, a chain of tokens that the
    method calls extend: [jen.Id("pb").Dot(f)] is [Stmt [Id "pb"; Dot f]].
    [Dict] keeps the entries of a [jen.Dict] in the order they were put;
    its keys are pointers to fresh statements, so no entry replaces
    another. *)

Module jen.

#[local] Set Warnings "-register-all".

Inductive Code :=
| Id (name : string)
| Dot (name : string)
| Op (op : string)
| Nil
| Lit (n : Z)
| Range
| Line
| Qual (path name : string)
| Tag (items : list (string * string))
| If (conditions : list Code)
| Block (statements : list Code)
| Return (results : list Code)
| Make (args : list Code)
| Map (typ : Code)
| Index (items : list Code)
| Len (v : Code)
| Append (args : list Code)
| Call (params : list Code)
| For (conditions : list Code)
| Values (values : list Code)
| Dict (entries : list (Code * Code))
| Stmt (tokens : list Code).

End jen.

(** What the partial generator [g.code] is asked to append, in order:
    [appendStruct], [appendFunction] (receiver [nil], one-response text
    empty) and [NewLine]. *)
Inductive Decl :=
| DStruct (name : string) (fields : list jen.Code)
| DFunction (name : string) (parameters results body : list jen.Code)
| DNewLine.

(** ** Generator state *)

Record structState := { Struct : parser.Struct; Visited : bool }.

Record fieldState := {
  TypeName : string;
  IsStructType : bool;
  IsMap : bool;
  MapKeyType : string;
  IsSlice : bool
}.

Definition pbNativeFields : gset string := {[ "state"; "sizeCache"; "unknownFields" ]}.

Record GenerateDTOFromProtoGo := {
  serviceName : string;
  protoGoFileFullPath : string;
  pbPackagePath : string;
  dtoPackagePath : string;
  dtoFileFullPath : string;
  targetPBStructName : string
}.

(** The observable steps of a run, in program order: a declaration handed
    to [g.code], or a write of [true] to the [Visited] flag of a registry
    entry. *)
Inductive Event :=
| Emit (d : Decl)
| MarkVisited (name : string).

(** The registry ([pbStructManifest], whose entries are shared pointers)
    and the history of the run so far. *)
Record GenState := { manifest : gmap string structState; log : list Event }.

Definition code (l : list Event) : list Decl :=
  omap (fun e => match e with Emit d => Some d | MarkVisited _ => None end) l.

(** A call either returns, panics (nil dereference, index out of range),
    or is cut off by the recursion budget of the model. *)
Inductive outcome (A : Type) :=
| Ok (a : A)
| Panic
| OutOfFuel.

Arguments Ok {A} a.
Arguments Panic {A}.
Arguments OutOfFuel {A}.

#[global] Instance outcome_bind : MBind outcome := fun A B k m =>
  match m with
  | Ok a => k a
  | Panic => Panic
  | OutOfFuel => OutOfFuel
  end.

Definition ofOption {A} (o : option A) : outcome A :=
  match o with Some a => Ok a | None => Panic end.

Fixpoint foldOutcome {A B} (f : B -> A -> outcome B) (l : list A) (b : B) : outcome B :=
  match l with
  | [] => Ok b
  | a :: l' => b' ← f b a; foldOutcome f l' b'
  end.

Definition emit (d : Decl) (st : GenState) : GenState :=
  {| manifest := manifest st; log := log st ++ [Emit d] |}.

(** [pbStructManifest[name].Visited = true]: a nil dereference when the
    name has no entry. *)
Definition setVisited (name : string) (st : GenState) : outcome GenState :=
  match manifest st !! name with
  | Some ss =>
      Ok {| manifest := <[name := {| Struct := Struct ss; Visited := true |}]> (manifest st);
            log := log st ++ [MarkVisited name] |}
  | None => Panic
  end.

(** Go leaves the order of [range] over a map open. A [MapOrder] fixes,
    for each direction and struct, some enumeration of the entries. *)
Inductive Direction := FromPB | ToPB.

Record MapOrder := {
  rangeOver :> Direction -> string -> gmap string fieldState -> list (string * fieldState);
  rangeOver_perm : forall d n m, rangeOver d n m ≡ₚ map_to_list m
}.

Definition mapOrderDefault : MapOrder :=
  {| rangeOver := fun _ _ m => map_to_list m;
     rangeOver_perm := fun _ _ m => reflexivity (map_to_list m) |}.

(** ** Binding synthesizers and the recursive walk *)

(** State of the loop over the fields of one struct: the run so far, the
    [fieldManifest] and the [dtoFields]. *)
Record Walk := {
  wState : GenState;
  wFields : gmap string fieldState;
  wDTO : list jen.Code
}.

(** Body and [jen.Dict] under construction in a binding synthesizer. *)
Record Binding := { funcBody : list jen.Code; assignments : list (jen.Code * jen.Code) }.

Section Generator.

Import jen.

(** [utils.JsonTag], from package [utils], and the order of [range]. *)
Variable JsonTag : string -> string * string.
Variable order : MapOrder.
Variable g : GenerateDTOFromProtoGo.

Definition nilGuard (src : string) : Code :=
  Stmt [If [Stmt [Id src; Id "=="; Nil]]; Block [Stmt [Return [Stmt [Nil]]]]; Line].

Definition fromPBField (b : Binding) (entry : string * fieldState) : Binding :=
  let fieldName := entry.1 in
  let fieldState := entry.2 in
  if negb (IsStructType fieldState) then
    {| funcBody := funcBody b;
       assignments := assignments b ++ [(Stmt [Id fieldName], Stmt [Id "pb"; Dot fieldName])] |}
  else if IsMap fieldState then
    {| funcBody := funcBody b ++
         [ Stmt [Id "m"; Op ":=";
                 Make [ Stmt [Map (Stmt [Id (MapKeyType fieldState)]); Id "*";
                              Qual (dtoPackagePath g) (TypeName fieldState)];
                        Stmt [Len (Stmt [Id "pb"; Dot fieldName])] ]];
           Stmt [For [ Stmt [Id "k"; Op ","; Id "v"; Op ":="; Range;
                             Qual (pbPackagePath g) fieldName;
                             Block [ Stmt [Id "m"; Index [Stmt [Id "k"]]; Op "=";
                                           Id (TypeName fieldState ++ "FromPB");
                                           Call [Stmt [Id "v"]]] ]] ]] ];
       assignments := assignments b ++ [(Stmt [Id fieldName], Stmt [Id "m"])] |}
  else if IsSlice fieldState then
    {| funcBody := funcBody b ++
         [ Stmt [Id "aSlice"; Op ":=";
                 Make [ Stmt [Index []; Id "*"; Qual (dtoPackagePath g) (TypeName fieldState)];
                        Stmt [Lit 0];
                        Stmt [Len (Stmt [Id "pb"; Dot fieldName])] ]];
           Stmt [For [ Stmt [Id "_"; Op ","; Id "v"; Op ":="; Range;
                             Qual (pbPackagePath g) fieldName;
                             Block [ Stmt [Id "aSlice"; Op "=";
                                           Append [ Stmt [Id "aSlice"];
                                                    Stmt [Id (TypeName fieldState ++ "FromPB");
                                                          Call [Stmt [Id "v"]]] ]] ]] ]] ];
       assignments := assignments b ++ [(Stmt [Id fieldName], Stmt [Id "aSlice"])] |}
  else
    {| funcBody := funcBody b;
       assignments := assignments b ++
         [(Stmt [Id fieldName],
           Stmt [Id (TypeName fieldState ++ "FromPB"); Call [Stmt [Id "pb"; Dot fieldName]]])] |}.

Definition fromPBBinding (currentPBStructName : string) (fieldManifest : gmap string fieldState) : Binding :=
  foldl fromPBField {| funcBody := [nilGuard "pb"]; assignments := [] |}
        (order FromPB currentPBStructName fieldManifest).

Definition fromPBFunction (currentPBStructName : string) (fieldManifest : gmap string fieldState) : Decl :=
  let b := fromPBBinding currentPBStructName fieldManifest in
  DFunction (currentPBStructName ++ "FromPB")
    [Stmt [Id "pb"; Id "*"; Qual (pbPackagePath g) currentPBStructName]]
    [Stmt [Id ""; Id "*"; Qual (dtoPackagePath g) currentPBStructName]]
    (funcBody b ++
       [Stmt [Return [Stmt [Id "&"; Qual (dtoPackagePath g) currentPBStructName;
                            Values [Dict (assignments b)]]]]]).

Definition genBindingFromPB (currentPBStructName : string) (fieldManifest : gmap string fieldState)
    (st : GenState) : GenState :=
  emit DNewLine (emit DNewLine (emit (fromPBFunction currentPBStructName fieldManifest) st)).

Definition toPBField (b : Binding) (entry : string * fieldState) : Binding :=
  let fieldName := entry.1 in
  let fieldState := entry.2 in
  if negb (IsStructType fieldState) then
    {| funcBody := funcBody b;
       assignments := assignments b ++ [(Stmt [Id fieldName], Stmt [Id "orig"; Dot fieldName])] |}
  else if IsMap fieldState then
    {| funcBody := funcBody b ++
         [ Stmt [Id "m"; Op ":=";
                 Make [ Stmt [Map (Stmt [Id (MapKeyType fieldState)]); Id "*";
                              Qual (pbPackagePath g) (TypeName fieldState)];
                        Stmt [Len (Stmt [Id "orig"; Dot fieldName])] ]];
           Stmt [For [ Stmt [Id "k"; Op ","; Id "v"; Op ":="; Range;
                             Id "orig"; Dot fieldName;
                             Block [ Stmt [Id "m"; Index [Stmt [Id "k"]]; Op "=";
                                           Id (TypeName fieldState ++ "ToPB");
                                           Call [Stmt [Id "v"]]] ]] ]] ];
       assignments := assignments b ++ [(Stmt [Id fieldName], Stmt [Id "m"])] |}
  else if IsSlice fieldState then
    {| funcBody := funcBody b ++
         [ Stmt [Id "aSlice"; Op ":=";
                 Make [ Stmt [Index []; Id "*"; Qual (pbPackagePath g) (TypeName fieldState)];
                        Stmt [Lit 0];
                        Stmt [Len (Stmt [Id "orig"; Dot fieldName])] ]];
           Stmt [For [ Stmt [Id "_"; Op ","; Id "v"; Op ":="; Range;
                             Id "orig"; Dot fieldName;
                             Block [ Stmt [Id "aSlice"; Op "=";
                                           Append [ Stmt [Id "aSlice"];
                                                    Stmt [Id (TypeName fieldState ++ "ToPB");
                                                          Call [Stmt [Id "v"]]] ]] ]] ]] ];
       assignments := assignments b ++ [(Stmt [Id fieldName], Stmt [Id "aSlice"])] |}
  else
    {| funcBody := funcBody b;
       assignments := assignments b ++
         [(Stmt [Id fieldName],
           Stmt [Id (TypeName fieldState ++ "ToPB"); Call [Stmt [Id "orig"; Dot fieldName]]])] |}.

Definition toPBBinding (currentPBStructName : string) (fieldManifest : gmap string fieldState) : Binding :=
  foldl toPBField {| funcBody := [nilGuard "orig"]; assignments := [] |}
        (order ToPB currentPBStructName fieldManifest).

Definition toPBFunction (currentPBStructName : string) (fieldManifest : gmap string fieldState) : Decl :=
  let b := toPBBinding currentPBStructName fieldManifest in
  DFunction (currentPBStructName ++ "ToPB")
    [Stmt [Id "orig"; Id "*"; Qual (dtoPackagePath g) currentPBStructName]]
    [Stmt [Id ""; Id "*"; Qual (pbPackagePath g) currentPBStructName]]
    (funcBody b ++
       [Stmt [Return [Stmt [Id "&"; Qual (pbPackagePath g) currentPBStructName;
                            Values [Dict (assignments b)]]]]]).

Definition genBindingToPB (currentPBStructName : string) (fieldManifest : gmap string fieldState)
    (st : GenState) : GenState :=
  emit DNewLine (emit (toPBFunction currentPBStructName fieldManifest) st).

(** One turn of the loop over [currentPBStruct.Vars]; [recurse] is the
    recursive call. *)
Definition fieldStep (recurse : parser.Struct -> GenState -> outcome GenState)
    (w : Walk) (field : parser.NamedTypeValue) : outcome Walk :=
  if decide (parser.VarName field ∈ pbNativeFields) then Ok w
  else
    let tag := JsonTag (parser.VarName field) in
    let dtoFields := wDTO w ++
      [Stmt [Id (parser.VarName field); Id (parser.VarType field); Tag [(tag.1, tag.2)]]] in
    parsed ← ofOption (parseFieldType (parser.VarType field));
    let '(fieldType, isSlice, isMap, mapKeyType) := parsed in
    match manifest (wState w) !! fieldType with
    | None =>
        Ok {| wState := wState w;
              wFields := <[parser.VarName field :=
                {| TypeName := fieldType; IsStructType := false; IsMap := isMap;
                   MapKeyType := mapKeyType; IsSlice := isSlice |}]> (wFields w);
              wDTO := dtoFields |}
    | Some structState =>
        let fieldManifest := <[parser.VarName field :=
                {| TypeName := fieldType; IsStructType := true; IsMap := isMap;
                   MapKeyType := mapKeyType; IsSlice := isSlice |}]> (wFields w) in
        if Visited structState then
          Ok {| wState := wState w; wFields := fieldManifest; wDTO := dtoFields |}
        else
          st1 ← recurse (Struct structState) (wState w);
          st2 ← setVisited fieldType st1;
          Ok {| wState := st2; wFields := fieldManifest; wDTO := dtoFields |}
    end.

(** What follows the loop: the struct, the flag, the two bindings. *)
Definition finishStruct (name : string) (w : Walk) : outcome GenState :=
  st2 ← setVisited name (emit (DStruct name (wDTO w)) (wState w));
  Ok (genBindingToPB name (wFields w) (genBindingFromPB name (wFields w) st2)).

Fixpoint genDTORecursive (fuel : nat) (currentPBStruct : parser.Struct) (st : GenState)
    : outcome GenState :=
  match fuel with
  | O => OutOfFuel
  | S fuel' =>
      structState ← ofOption (manifest st !! parser.Name currentPBStruct);
      if Visited structState then Ok st
      else
        w ← foldOutcome (fieldStep (genDTORecursive fuel')) (parser.Vars currentPBStruct)
              {| wState := st; wFields := ∅; wDTO := [] |};
        finishStruct (parser.Name currentPBStruct) w
  end.

(** ** [Generate] *)

Definition buildManifest (structures : list parser.Struct) : gmap string structState :=
  foldl (fun m pbStruct => <[parser.Name pbStruct := {| Struct := pbStruct; Visited := false |}]> m)
        ∅ structures.

(** Whether the loop of [Generate] hands the struct to the walk. *)
Definition selected (pbStruct : parser.Struct) : bool :=
  if decide (targetPBStructName g = "") then
    strings.HasSuffix (parser.Name pbStruct) "Request"
    || strings.HasSuffix (parser.Name pbStruct) "Response"
  else bool_decide (parser.Name pbStruct = targetPBStructName g).

Definition generateStep (fuel : nat) (st : GenState) (pbStruct : parser.Struct) : outcome GenState :=
  if selected pbStruct then genDTORecursive fuel pbStruct st else Ok st.

(** From the header comment to the end of the loop over the structs. *)
Definition generateStructs (fuel : nat) (structures : list parser.Struct) : outcome GenState :=
  foldOutcome (generateStep fuel) structures
    {| manifest := buildManifest structures; log := [Emit DNewLine] |}.

End Generator.

(** The collaborators [Generate] calls: the folder and file operations of
    the base generator and of [fs], and the parser. Each answers with a
    value or with an error text. *)
Inductive result (A : Type) :=
| Success (a : A)
| Failure (e : string).

Arguments Success {A} a.
Arguments Failure {A} e.

(** The source file handed to [WriteFile]: the package comment and the
    declarations appended to [g.code]. *)
Record Output := { packageComment : string; decls : list Decl }.

Record World := {
  CreateFolderStructure : string -> option string;
  fsExists : string -> result bool;
  fsReadFile : string -> result string;
  Parse : string -> result parser.File;
  fsWriteFile : string -> Output -> bool -> option string
}.

Inductive error :=
| ErrPassed (e : string)
| ErrCheckingPbGo (path e : string)
| ErrPbGoMissing (path : string)
| ErrReadingPbGo (path e : string)
| ErrParsingPbGo (path e : string).

Definition headerComment : string := "THIS FILE IS AUTO GENERATED, DO NOT EDIT!!".

(** What a call of [Generate] leaves behind: the error returned and the
    request made to [WriteFile], if the call got that far. *)
Record Run := { err : option error; writeRequest : option (string * Output) }.

Definition Generate (JsonTag : string -> string * string) (order : MapOrder)
    (world : World) (g : GenerateDTOFromProtoGo) (fuel : nat) : outcome Run :=
  match CreateFolderStructure world (dtoPackagePath g) with
  | Some e => Ok {| err := Some (ErrPassed e); writeRequest := None |}
  | None =>
      match fsExists world (protoGoFileFullPath g) with
      | Failure e =>
          Ok {| err := Some (ErrCheckingPbGo (protoGoFileFullPath g) e); writeRequest := None |}
      | Success false =>
          Ok {| err := Some (ErrPbGoMissing (protoGoFileFullPath g)); writeRequest := None |}
      | Success true =>
          match fsReadFile world (protoGoFileFullPath g) with
          | Failure e =>
              Ok {| err := Some (ErrReadingPbGo (protoGoFileFullPath g) e); writeRequest := None |}
          | Success pbGoSrc =>
              match Parse world pbGoSrc with
              | Failure e =>
                  Ok {| err := Some (ErrParsingPbGo (protoGoFileFullPath g) e);
                        writeRequest := None |}
              | Success pbGoFile =>
                  st ← generateStructs JsonTag order g fuel (parser.Structures pbGoFile);
                  let out := {| packageComment := "THIS FILE IS AUTO GENERATED, DO NOT EDIT!!";
                                decls := code (log st) |} in
                  Ok {| err := ErrPassed <$> fsWriteFile world (dtoFileFullPath g) out true;
                        writeRequest := Some (dtoFileFullPath g, out) |}
              end
          end
      end
  end.

(** ** Reading the generated code *)

Module emitted.

Import jen.

(** Names standing right after [range] as a qualified identifier. *)
Fixpoint rangeTargets (tokens : list Code) : list string :=
  match tokens with
  | [] => []
  | t :: rest =>
      match t, rest with
      | Range, Qual _ n :: _ => [n]
      | _, _ => []
      end ++ rangeTargets rest
  end.

(** Selector names: every [.name], every literal key, every
    [range] target. Type names and function names are not fields. *)
Fixpoint fieldRefs (c : Code) : list string :=
  match c with
  | Dot n => [n]
  | Dict entries =>
      flat_map (fun kv => match kv with
                          | (Stmt [Id n], v) => n :: fieldRefs v
                          | (k, v) => fieldRefs k ++ fieldRefs v
                          end) entries
  | Stmt tokens => rangeTargets tokens ++ flat_map fieldRefs tokens
  | If l | Block l | Return l | Make l | Index l | Append l | Call l | For l | Values l =>
      flat_map fieldRefs l
  | Map c' | Len c' => fieldRefs c'
  | _ => []
  end.

(** The field a struct member declares: the first identifier. *)
Definition memberName (c : Code) : option string :=
  match c with
  | Stmt (Id n :: _) => Some n
  | _ => None
  end.

Definition declFieldRefs (d : Decl) : list string :=
  match d with
  | DStruct _ fields => omap memberName fields
  | DFunction _ _ _ body => flat_map fieldRefs body
  | DNewLine => []
  end.

(** The type a struct member declares, as written: the second identifier. *)
Definition memberType (c : Code) : option string :=
  match c with
  | Stmt (Id _ :: Id t :: _) => Some t
  | _ => None
  end.

(** Variables a block declares with [:=] at its top level. Go rejects a
    block that declares the same variable twice this way. *)
Definition shortVarDecl (c : Code) : option string :=
  match c with
  | Stmt (Id x :: Op ":=" :: _) => Some x
  | _ => None
  end.

Definition shortVarDecls (body : list Code) : list string := omap shortVarDecl body.

(** The entries of the literal a body returns. *)
Definition returnedEntries (body : list Code) : list (Code * Code) :=
  match last body with
  | Some (Stmt [Return [Stmt [_; _; Values [Dict entries]]]]) => entries
  | _ => []
  end.

End emitted.

(** ** Running a generated body

    The control skeleton of the Go statements the synthesizers produce: an
    [if] with its block, and [return]. A test [x == nil] and the expression
    [nil] have their Go meaning; every other condition, expression and
    statement is left to the three functions of the section. Values are
    [None] for [nil] and [Some v] otherwise. *)

Section GoFragment.

Import jen.

Variable V : Type.

Definition Env := string -> option V.

Variable evalOther : Code -> Env -> option V.
Variable condOther : Code -> Env -> bool.
Variable execOther : Code -> Env -> Env.

Inductive Flow :=
| Returned (v : option V)
| Continues (ρ : Env).

Definition evalExpr (e : Code) (ρ : Env) : option V :=
  match e with
  | Stmt [Nil] => None
  | Stmt [Id x] => ρ x
  | _ => evalOther e ρ
  end.

Definition evalCond (c : Code) (ρ : Env) : bool :=
  match c with
  | Stmt [Id x; Id "=="; Nil] => match ρ x with Some _ => false | None => true end
  | _ => condOther c ρ
  end.

(** The flow after a statement, and the statements other than [if] that
    were run, in order. *)
Fixpoint exec (s : Code) (ρ : Env) : Flow * list Code :=
  match s with
  | Stmt (If [c] :: Block blk :: _) =>
      if evalCond c ρ then
        (fix run (l : list Code) (ρ : Env) : Flow * list Code :=
           match l with
           | [] => (Continues ρ, [])
           | s' :: l' =>
               match exec s' ρ with
               | (Continues ρ', ran) => let r := run l' ρ' in (r.1, ran ++ r.2)
               | stop => stop
               end
           end) blk ρ
      else (Continues ρ, [])
  | Stmt [Return [e]] => (Returned (evalExpr e ρ), [s])
  | _ => (Continues (execOther s ρ), [s])
  end.

Fixpoint execBody (body : list Code) (ρ : Env) : Flow * list Code :=
  match body with
  | [] => (Continues ρ, [])
  | s :: rest =>
      match exec s ρ with
      | (Continues ρ', ran) => let r := execBody rest ρ' in (r.1, ran ++ r.2)
      | stop => stop
      end
  end.

(** A call of a generated one-parameter function on [arg]. *)
Definition callWith (d : Decl) (arg : option V) : option (Flow * list Code) :=
  match d with
  | DFunction _ [Stmt (Id p :: _)] _ body =>
      Some (execBody body (fun x => if decide (x = p) then arg else None))
  | _ => None
  end.

End GoFragment.

Arguments Returned {V} v.
Arguments Continues {V} ρ.

(** Modelled from the spec: [utils.JsonTag] is not part of the file; the tag
    key is [json] and the tag value the field name with its first letter
    in lower case. *)
Definition lowerFirst (s : string) : string :=
  match s with
  | EmptyString => EmptyString
  | String c rest =>
      let n := nat_of_ascii c in
      String (if (65 <=? n)%nat && (n <=? 90)%nat then ascii_of_nat (n + 32) else c) rest
  end.

Definition jsonTagModel (fieldName : string) : string * string := ("json", lowerFirst fieldName).

(** ** Vocabulary of the statements *)

(** The byte [c] occurs in [s]. *)
Fixpoint hasByte (c : ascii) (s : string) : bool :=
  match s with
  | EmptyString => false
  | String d s' => Ascii.eqb d c || hasByte c s'
  end.



(** *** The registry *)

Definition registered (st : GenState) (name : string) : Prop :=
  is_Some (manifest st !! name).

Definition visited (st : GenState) (name : string) : Prop :=
  exists ss, manifest st !! name = Some ss /\ Visited ss = true.

Definition unvisited (st : GenState) (name : string) : Prop :=
  exists ss, manifest st !! name = Some ss /\ Visited ss = false.

(** Every entry sits under the name of its struct, as [Generate] builds
    the registry. *)
Definition wellKeyed (st : GenState) : Prop :=
  forall name ss, manifest st !! name = Some ss -> parser.Name (Struct ss) = name.

(** *** What the loop over the fields computes *)

(** The fields the loop does not skip. *)
Definition retained (vars : list parser.NamedTypeValue) : list parser.NamedTypeValue :=
  filter (fun f => parser.VarName f ∉ pbNativeFields) vars.

(** The member of the DTO struct that a field produces. *)
Definition member (JsonTag : string -> string * string) (f : parser.NamedTypeValue) : jen.Code :=
  jen.Stmt [jen.Id (parser.VarName f); jen.Id (parser.VarType f);
            jen.Tag [((JsonTag (parser.VarName f)).1, (JsonTag (parser.VarName f)).2)]].

Definition dtoFieldsOf (JsonTag : string -> string * string) (vars : list parser.NamedTypeValue)
    : list jen.Code :=
  member JsonTag <$> retained vars.

(** The [fieldState] a field is recorded with, for a given registry. *)
Definition classify (M : gmap string structState) (f : parser.NamedTypeValue) : option fieldState :=
  parsed ← parseFieldType (parser.VarType f);
  Some {| TypeName := parsed.1.1.1;
          IsStructType := bool_decide (is_Some (M !! parsed.1.1.1));
          IsMap := parsed.1.2;
          MapKeyType := parsed.2;
          IsSlice := parsed.1.1.2 |}.

Definition recordField (M : gmap string structState) (fm : gmap string fieldState)
    (f : parser.NamedTypeValue) : gmap string fieldState :=
  match classify M f with
  | Some fs => <[parser.VarName f := fs]> fm
  | None => fm
  end.

Definition fieldManifestOf (M : gmap string structState) (vars : list parser.NamedTypeValue)
    : gmap string fieldState :=
  foldl (recordField M) ∅ (retained vars).

(** The name a field refers to: the name its type text is read as, when
    the registry holds it. *)
Definition refersTo (M : gmap string structState) (f : parser.NamedTypeValue) (name : string) : Prop :=
  exists isSlice isMap mapKeyType,
    parseFieldType (parser.VarType f) = Some (name, isSlice, isMap, mapKeyType)
    /\ is_Some (M !! name).

(** *** The history of a run *)

(** The events one struct adds once its fields are processed. *)
Definition unitEvents (JsonTag : string -> string * string) (order : MapOrder)
    (g : GenerateDTOFromProtoGo) (M : gmap string structState) (cur : parser.Struct) : list Event :=
  [ Emit (DStruct (parser.Name cur) (dtoFieldsOf JsonTag (parser.Vars cur)));
    MarkVisited (parser.Name cur);
    Emit (fromPBFunction order g (parser.Name cur) (fieldManifestOf M (parser.Vars cur)));
    Emit DNewLine; Emit DNewLine;
    Emit (toPBFunction order g (parser.Name cur) (fieldManifestOf M (parser.Vars cur)));
    Emit DNewLine ].

Definition marked (ss : structState) : structState := {| Struct := Struct ss; Visited := true |}.

(** The two ways the state moves at the level of whole structs: a struct
    whose referenced structs are all visited adds its events and is marked;
    or the flag of an already visited struct is written again (the write
    after a recursive call). [Q] relates the struct processed to the
    struct the registry holds under its name. *)
Inductive Step (JsonTag : string -> string * string) (order : MapOrder)
    (g : GenerateDTOFromProtoGo) (Q : parser.Struct -> parser.Struct -> Prop)
    : GenState -> GenState -> Prop :=
| Step_unit st cur ss :
    manifest st !! parser.Name cur = Some ss ->
    (forall f, f ∈ retained (parser.Vars cur) -> is_Some (classify (manifest st) f)) ->
    (forall f name, f ∈ retained (parser.Vars cur) -> refersTo (manifest st) f name ->
                    visited st name) ->
    Q cur (Struct ss) ->
    Step JsonTag order g Q st
         {| manifest := <[parser.Name cur := marked ss]> (manifest st);
            log := log st ++ unitEvents JsonTag order g (manifest st) cur |}
| Step_mark st name ss :
    manifest st !! name = Some ss ->
    Visited ss = true ->
    Step JsonTag order g Q st
         {| manifest := <[name := marked ss]> (manifest st);
            log := log st ++ [MarkVisited name] |}.

(** Whatever struct is processed under a name. *)
Definition anyStruct (cur registered : parser.Struct) : Prop := True.

(** One state comes after another: same names, same structs, flags only
    raised, history only extended. *)
Record Evolves (st st' : GenState) : Prop := {
  evolves_entry : forall name ss, manifest st !! name = Some ss ->
      exists ss', manifest st' !! name = Some ss' /\ Struct ss' = Struct ss
                  /\ (Visited ss = true -> Visited ss' = true);
  evolves_absent : forall name, manifest st !! name = None -> manifest st' !! name = None;
  evolves_log : exists new, log st' = log st ++ new
}.

(** *** Runs of [Generate] *)

(** The state in which the loop of [Generate] starts. *)
Definition initialState (structures : list parser.Struct) : GenState :=
  {| manifest := buildManifest structures; log := [Emit DNewLine] |}.

(** A world whose folder, file and parser operations all succeed, the
    parser answering with the given structs. *)
Definition quietWorld (structures : list parser.Struct) : World :=
  {| CreateFolderStructure := fun _ => None;
     fsExists := fun _ => Success true;
     fsReadFile := fun _ => Success EmptyString;
     Parse := fun _ => Success {| parser.Structures := structures |};
     fsWriteFile := fun _ _ _ => None |}.

(** A generator for service [test], as the tests of the package set it up. *)
Definition testGenerator (target : string) : GenerateDTOFromProtoGo :=
  {| serviceName := "test";
     protoGoFileFullPath := "test/pkg/grpc/pb/z_test.pb.go";
     pbPackagePath := "test/pkg/grpc/pb";
     dtoPackagePath := "test/pkg/test/dto";
     dtoFileFullPath := "test/pkg/test/dto/z_test_dto.go";
     targetPBStructName := target |}.

Definition emptyStruct (name : string) : parser.Struct :=
  {| parser.Name := name; parser.Vars := [] |}.

(** *** Generated functions *)

(** A function is guarded when its single parameter is tested against
    [nil] by its first statement. *)
Definition guarded (d : Decl) : Prop :=
  match d with
  | DFunction _ parameters _ body =>
      exists p ptype rest, parameters = [jen.Stmt (jen.Id p :: ptype)] /\ body = nilGuard p :: rest
  | _ => True
  end.

Definition isFunction (d : Decl) : Prop :=
  match d with DFunction _ _ _ _ => True | _ => False end.

(** The write at position [i] of a history raises the flag of [name]: no
    earlier write did. Flags start lowered and only these writes touch
    them. *)
Definition transition (l : list Event) (i : nat) (name : string) : Prop :=
  l !! i = Some (MarkVisited name)
  /\ forall j, (j < i)%nat -> l !! j <> Some (MarkVisited name).

(** A function of the given name is emitted before position [i]. *)
Definition functionBefore (l : list Event) (i : nat) (name : string) : Prop :=
  exists j parameters results body,
    (j < i)%nat /\ l !! j = Some (Emit (DFunction name parameters results body)).

(** The declarations of one struct as they follow each other in the
    output, from position [j]: the type, the two functions. *)
Definition unitAt (order : MapOrder) (g : GenerateDTOFromProtoGo)
    (ds : list Decl) (j : nat) (name : string) : Prop :=
  exists fields fm,
    ds !! j = Some (DStruct name fields)
    /\ ds !! (j + 1)%nat = Some (fromPBFunction order g name fm)
    /\ ds !! (j + 4)%nat = Some (toPBFunction order g name fm).

(** The whole unit of [name] lies before position [i]. *)
Definition unitBefore (order : MapOrder) (g : GenerateDTOFromProtoGo)
    (ds : list Decl) (i : nat) (name : string) : Prop :=
  exists j, (j + 4 < i)%nat /\ unitAt order g ds j name.

(** *** A schema to run the generator on

    The schema of the package's last test, with the bookkeeping fields the
    protocol-buffer compiler adds and a second repeated field. *)

Definition var (name type : string) : parser.NamedTypeValue :=
  {| parser.VarName := name; parser.VarType := type |}.

Definition sampleSchema : list parser.Struct :=
  [ {| parser.Name := "Something";
       parser.Vars := [ var "state" "protoimpl.MessageState";
                        var "sizeCache" "protoimpl.SizeCache";
                        var "unknownFields" "protoimpl.UnknownFields";
                        var "Name" "string";
                        var "StructMap" "map[string]*StructVal";
                        var "StructSlice" "[]*StructVal" ] |};
    {| parser.Name := "StructVal";
       parser.Vars := [ var "state" "protoimpl.MessageState"; var "AString" "string" ] |};
    emptyStruct "Nothing";
    emptyStruct "ARequest" ].

(** *** The reference graph of a schema *)

(** [x] has a retained field that refers to the registered struct [y]. *)
Definition edge (structures : list parser.Struct) (x y : string) : Prop :=
  exists S f,
    S ∈ structures /\ parser.Name S = x /\ f ∈ retained (parser.Vars S)
    /\ refersTo (buildManifest structures) f y.



(** An envelope of items: one struct referring to another through a
    repeated field. *)
Definition envelopeSchema : list parser.Struct :=
  [ {| parser.Name := "Envelope"; parser.Vars := [var "Items" "[]*Item"] |};
    {| parser.Name := "Item"; parser.Vars := [var "Label" "string"] |} ].

(** A response with two repeated struct fields. *)
Definition listSchema : list parser.Struct :=
  [ {| parser.Name := "ListResponse";
       parser.Vars := [var "Users" "[]*User"; var "Groups" "[]*Group"] |};
    {| parser.Name := "User"; parser.Vars := [var "Name" "string"] |};
    {| parser.Name := "Group"; parser.Vars := [var "Name" "string"] |} ].

Definition sliceOfStruct (typeName : string) : fieldState :=
  {| TypeName := typeName; IsStructType := true; IsMap := false;
     MapKeyType := EmptyString; IsSlice := true |}.

(** The field manifest of [ListResponse]. *)
Definition listFields : gmap string fieldState :=
  <["Groups" := sliceOfStruct "Group"]> (<["Users" := sliceOfStruct "User"]> ∅).

Definition bodyOf (d : Decl) : list jen.Code :=
  match d with
  | DFunction _ _ _ body => body
  | _ => []
  end.

(** *** Counting the units of a name *)

Definition isTypeNamed (name : string) (d : Decl) : bool :=
  match d with
  | DStruct n _ => bool_decide (n = name)
  | _ => false
  end.

(** How many DTO types of the given name a list of declarations holds. *)
Definition typesNamed (name : string) (ds : list Decl) : nat :=
  length (filter (fun d => isTypeNamed name d = true) ds).

(** *** What the recursive call is known to do when the loop is analysed *)

Definition entryOk (Q : parser.Struct -> parser.Struct -> Prop)
    (c : parser.Struct) (s : GenState) : Prop :=
  forall ss, manifest s !! parser.Name c = Some ss -> Q c (Struct ss).

Definition WalkSpec (JsonTag : string -> string * string) (order : MapOrder)
    (g : GenerateDTOFromProtoGo) (Q : parser.Struct -> parser.Struct -> Prop)
    (recurse : parser.Struct -> GenState -> outcome GenState) : Prop :=
  forall c s s', wellKeyed s -> entryOk Q c s -> recurse c s = Ok s' ->
                 rtc (Step JsonTag order g Q) s s' /\ visited s' (parser.Name c).

(** One turn of the loop that builds the registry. *)
Definition register (m : gmap string structState) (pbStruct : parser.Struct)
    : gmap string structState :=
  <[parser.Name pbStruct := {| Struct := pbStruct; Visited := false |}]> m.

(** The fields a binding under construction mentions. *)
Definition bindingRefs (b : Binding) : list string :=
  flat_map emitted.fieldRefs (funcBody b) ++ emitted.fieldRefs (jen.Dict (assignments b)).

(** Every DTO type of the output heads a unit. *)
Definition headsUnits (order : MapOrder) (g : GenerateDTOFromProtoGo) (st : GenState) : Prop :=
  forall i name fields,
    code (log st) !! i = Some (DStruct name fields) -> unitAt order g (code (log st)) i name.

(** An event that mentions no skipped field. *)
Definition cleanEvent (e : Event) : Prop :=
  match e with
  | Emit d => forall n, n ∈ emitted.declFieldRefs d -> n ∉ pbNativeFields
  | MarkVisited _ => True
  end.

(** The flags and the history agree, a raising write sits between the
    type and the functions of a unit, and every function comes after a
    write for its struct. *)
Record Coherent (order : MapOrder) (g : GenerateDTOFromProtoGo) (st : GenState) : Prop := {
  coh_flag : forall x, visited st x <-> MarkVisited x ∈ log st;
  coh_raise : forall i x, transition (log st) i x ->
    exists p fields fm,
      i = (p + 1)%nat
      /\ log st !! p = Some (Emit (DStruct x fields))
      /\ log st !! (p + 2)%nat = Some (Emit (fromPBFunction order g x fm))
      /\ log st !! (p + 5)%nat = Some (Emit (toPBFunction order g x fm));
  coh_function : forall j name ps rs body,
    log st !! j = Some (Emit (DFunction name ps rs body)) ->
    exists y j', (j' < j)%nat /\ log st !! j' = Some (MarkVisited y)
                 /\ (name = (y ++ "FromPB")%string \/ name = (y ++ "ToPB")%string);
  coh_struct : forall p x fields,
    log st !! p = Some (Emit (DStruct x fields)) ->
    log st !! (p + 1)%nat = Some (MarkVisited x)
}.

(** A visited struct has its unit in the output, and the structs a member
    of an emitted type refers to have theirs before that type. *)
Record Ordered (order : MapOrder) (g : GenerateDTOFromProtoGo) (st : GenState) : Prop := {
  ord_visited : forall x,
    visited st x -> unitBefore order g (code (log st)) (length (code (log st))) x;
  ord_member : forall i name fields m t R isSlice isMap mapKeyType,
    code (log st) !! i = Some (DStruct name fields) ->
    m ∈ fields -> emitted.memberType m = Some t ->
    parseFieldType t = Some (R, isSlice, isMap, mapKeyType) ->
    registered st R ->
    unitBefore order g (code (log st)) i R
}.


(** The shape of a visit of an unvisited struct when every struct is
    taken from the registry: steps that leave the struct unvisited, then
    its unit. *)
Definition VisitShape (JsonTag : string -> string * string) (order : MapOrder)
    (g : GenerateDTOFromProtoGo) (c : parser.Struct) (s s' : GenState) : Prop :=
  exists sL ssL,
    rtc (Step JsonTag order g eq) s sL
    /\ manifest sL !! parser.Name c = Some ssL
    /\ Visited ssL = false
    /\ (forall f y, f ∈ retained (parser.Vars c) -> refersTo (manifest sL) f y -> visited sL y)
    /\ s' = {| manifest := <[parser.Name c := marked ssL]> (manifest sL);
               log := log sL ++ unitEvents JsonTag order g (manifest sL) c |}.

Definition VisitSpec (JsonTag : string -> string * string) (order : MapOrder)
    (g : GenerateDTOFromProtoGo)
    (recurse : parser.Struct -> GenState -> outcome GenState) : Prop :=
  forall c s s' ss,
    wellKeyed s -> manifest s !! parser.Name c = Some ss -> Struct ss = c ->
    Visited ss = false -> recurse c s = Ok s' -> VisitShape JsonTag order g c s s'.

(** *** The output as a sequence of units *)

(** The struct processed under a name belongs to the schema when the
    registered one does. *)
Definition inSchema (structures : list parser.Struct) (cur reg : parser.Struct) : Prop :=
  reg ∈ structures -> cur ∈ structures.

(** The declarations a struct of the schema is turned into. *)
Definition unitDecls (JsonTag : string -> string * string) (order : MapOrder)
    (g : GenerateDTOFromProtoGo) (structures : list parser.Struct) (S : parser.Struct)
    : list Decl :=
  code (unitEvents JsonTag order g (buildManifest structures) S).

(** The state holds the units of the structs [processed], in this order,
    and nothing else. *)
Record UnitsOf (JsonTag : string -> string * string) (order : MapOrder)
    (g : GenerateDTOFromProtoGo) (structures : list parser.Struct)
    (st : GenState) (processed : list parser.Struct) : Prop := {
  units_schema : forall S, S ∈ processed -> S ∈ structures;
  units_parse : forall S f, S ∈ processed -> f ∈ retained (parser.Vars S) ->
      is_Some (parseFieldType (parser.VarType f));
  units_code : code (log st) = DNewLine :: flat_map (unitDecls JsonTag order g structures) processed;
  units_visited : forall x, visited st x <-> x ∈ parser.Name <$> processed
}.

(** The flag of a name, lowered when the registry has no such entry. *)
Definition flagOf (st : GenState) (name : string) : bool :=
  match manifest st !! name with
  | Some ss => Visited ss
  | None => false
  end.

(** One DTO type for each raised flag, none for the others. *)
Definition Counted (st : GenState) : Prop :=
  forall x, typesNamed x (code (log st)) = if flagOf st x then 1 else 0.

Definition CountSpec (recurse : parser.Struct -> GenState -> outcome GenState) : Prop :=
  forall c s s' ss,
    wellKeyed s -> manifest s !! parser.Name c = Some ss -> Struct ss = c ->
    Counted s -> recurse c s = Ok s' -> Counted s'.

(** A DTO type among the events is that of a struct the chain of
    references leads to from [x]. *)
Definition fromRoot (structures : list parser.Struct) (x : string) (e : Event) : Prop :=
  match e with
  | Emit (DStruct n _) => rtc (edge structures) x n
  | _ => True
  end.

Definition ReachSpec (structures : list parser.Struct)
    (recurse : parser.Struct -> GenState -> outcome GenState) : Prop :=
  forall c s s',
    Evolves (initialState structures) s -> c ∈ structures -> recurse c s = Ok s' ->
    exists new, log s' = log s ++ new /\ Forall (fromRoot structures (parser.Name c)) new.

(** A DTO type among the events stems from a struct the loop of
    [Generate] selects. *)
Definition fromSelected (g : GenerateDTOFromProtoGo) (structures : list parser.Struct)
    (e : Event) : Prop :=
  match e with
  | Emit (DStruct n _) =>
      exists S, S ∈ structures /\ selected g S = true /\ rtc (edge structures) (parser.Name S) n
  | _ => True
  end.


(** *** Reading a conversion function *)

(** The variable a field of the manifest makes the body declare: [m]
    for a map of structs, [aSlice] for a sequence of structs. *)
Definition tempVar (fs : fieldState) : option string :=
  if negb (IsStructType fs) then None
  else if IsMap fs then Some "m"
  else if IsSlice fs then Some "aSlice"
  else None.

(** The keys of the returned literal, as written. *)
Definition literalKeys (d : Decl) : list jen.Code := (emitted.returnedEntries (bodyOf d)).*1.

(** The variables the body declares with [:=], in order. *)
Definition declared (d : Decl) : list string := emitted.shortVarDecls (bodyOf d).

Definition fieldKey (k : string) : jen.Code := jen.Stmt [jen.Id k].

(** Two fields of the manifest share no declared variable. *)
Definition distinctTemps (fm : gmap string fieldState) : Prop :=
  forall k1 k2 fs1 fs2 x,
    fm !! k1 = Some fs1 -> fm !! k2 = Some fs2 ->
    tempVar fs1 = Some x -> tempVar fs2 = Some x -> k1 = k2.

(** * Properties *)

(** ** Strings *)

#[local] Arguments String.append !_ _ / : simpl nomatch.
#[local] Arguments Ascii.eqb : simpl never.

Section StringFacts.

Implicit Types (s t u : string) (c : ascii).

Lemma string_app_empty_r s : (s ++ "")%string = s.
Proof. induction s as [|d s IH]; simpl; [done|]. by rewrite IH. Qed.

Lemma string_app_assoc s t u : ((s ++ t) ++ u)%string = (s ++ t ++ u)%string.
Proof. induction s as [|d s IH]; simpl; [done|]. by rewrite IH. Qed.

Lemma string_app_length s t :
  String.length (s ++ t) = (String.length s + String.length t)%nat.
Proof. induction s as [|d s IH]; simpl; [done|]. by rewrite IH. Qed.

Lemma hasByte_app c s t : hasByte c (s ++ t)%string = hasByte c s || hasByte c t.
Proof.
  induction s as [|d s IH]; simpl; [done|].
  rewrite IH. by rewrite orb_assoc.
Qed.

Lemma HasPrefix_cons a b s t :
  strings.HasPrefix (String b s) (String a t) = Ascii.eqb a b && strings.HasPrefix s t.
Proof. simpl. by destruct (Ascii.eqb a b). Qed.

Lemma Contains_cons c s t :
  strings.Contains (String c s) t = strings.HasPrefix (String c s) t || strings.Contains s t.
Proof. reflexivity. Qed.

Lemma HasPrefix_hasByte s c t : strings.HasPrefix s (String c t) = true -> hasByte c s = true.
Proof.
  destruct s as [|d s]; [done|]. rewrite HasPrefix_cons. simpl.
  destruct (Ascii.eqb_spec c d) as [->|]; [|done].
  intros _. by rewrite Ascii.eqb_refl.
Qed.

(** A substring puts each of its bytes into the string. *)
Lemma Contains_second_byte s c d t :
  strings.Contains s (String c (String d t)) = true -> hasByte d s = true.
Proof.
  induction s as [|e s IH]; [done|].
  rewrite Contains_cons, HasPrefix_cons. simpl.
  intros [[_ Hp]%andb_true_iff|H]%orb_true_iff.
  - apply HasPrefix_hasByte in Hp. rewrite Hp. apply orb_true_r.
  - rewrite (IH H). apply orb_true_r.
Qed.

(** [Split] on the closing bracket has a second piece exactly when the
    string holds a closing bracket. *)
Lemma splitFrom_no_sep acc s :
  hasByte "]" s = false -> strings.splitFrom "]" 0 acc s = [(acc ++ s)%string].
Proof.
  revert acc. induction s as [|d s IH]; intros acc; simpl.
  - intros _. f_equal. by rewrite string_app_empty_r.
  - destruct (Ascii.eqb_spec d "]") as [->|Hd]; simpl; [done|].
    destruct (Ascii.eqb_spec "]" d) as [<-|_]; [done|].
    intros H. rewrite (IH _ H). f_equal.
    by rewrite string_app_assoc.
Qed.

Lemma splitFrom_nonempty sep k acc s : strings.splitFrom sep k acc s <> [].
Proof.
  revert k acc. induction s as [|d s IH]; intros k acc; simpl; [done|].
  destruct k; [|apply IH].
  destruct (strings.HasPrefix (String d s) sep); [done|apply IH].
Qed.

Lemma splitFrom_closing acc s :
  strings.splitFrom "]" 0 acc (String "]" s) = acc :: strings.splitFrom "]" 0 "" s.
Proof. reflexivity. Qed.

Lemma splitFrom_other acc d s :
  d <> "]"%char ->
  strings.splitFrom "]" 0 acc (String d s) = strings.splitFrom "]" 0 (acc ++ String d "") s.
Proof.
  intros Hd. simpl. destruct (Ascii.eqb_spec "]" d) as [<-|_]; [done|]. done.
Qed.

Lemma splitFrom_sep acc s :
  hasByte "]" s = true -> is_Some (strings.splitFrom "]" 0 acc s !! 1%nat).
Proof.
  revert acc. induction s as [|d s IH]; intros acc; [done|].
  destruct (decide (d = "]"%char)) as [->|Hd].
  - intros _. rewrite splitFrom_closing.
    pose proof (splitFrom_nonempty "]" 0 "" s) as Hne.
    destruct (strings.splitFrom "]" 0 "" s) as [|piece rest]; [done|]. by exists piece.
  - rewrite splitFrom_other by done. simpl.
    destruct (Ascii.eqb_spec d "]") as [->|_]; [done|]. apply IH.
Qed.

Lemma Split_second_is_Some s :
  hasByte "]" s = true -> is_Some (strings.Split s "]" !! 1%nat).
Proof.
  apply splitFrom_sep.
Qed.

Lemma Split_second_is_None s :
  hasByte "]" s = false -> strings.Split s "]" !! 1%nat = None.
Proof. intros H. unfold strings.Split. by rewrite splitFrom_no_sep. Qed.

End StringFacts.

(** ** Field classifier *)

Section ClassifierFacts.

Implicit Types (s t u m : string) (c : ascii).

Lemma HasPrefix_app s t : strings.HasPrefix (s ++ t) s = true.
Proof.
  induction s as [|d s IH]; [done|].
  simpl. by rewrite Ascii.eqb_refl.
Qed.

Lemma Contains_of_prefix s t : strings.HasPrefix s t = true -> strings.Contains s t = true.
Proof. intros H. destruct s; simpl; by rewrite H. Qed.

Lemma Contains_app u s t : strings.Contains (u ++ s ++ t) s = true.
Proof.
  induction u as [|d u IH].
  - simpl String.append. apply Contains_of_prefix, HasPrefix_app.
  - simpl String.append. rewrite Contains_cons, IH. apply orb_true_r.
Qed.

(** *** The regular expression *)

Lemma matchTail_shape s m :
  regexp.matchTail s = Some m ->
  exists body post,
    s = (body ++ "]" ++ post)%string /\ m = (body ++ "]")%string
    /\ hasByte "[" body = false /\ hasByte "]" body = false.
Proof.
  revert m. induction s as [|d s IH]; intros m; simpl; [done|].
  unfold regexp.rbracket, regexp.lbracket.
  destruct (Ascii.eqb_spec d "]") as [->|Hr].
  - intros [= <-]. by exists EmptyString, s.
  - destruct (Ascii.eqb_spec d "[") as [->|Hl]; [done|].
    destruct (regexp.matchTail s) as [m'|] eqn:E; [|done].
    intros [= <-]. destruct (IH m' eq_refl) as (body & post & -> & -> & Hb1 & Hb2).
    exists (String d body), post. simpl. rewrite Hb1, Hb2.
    destruct (Ascii.eqb_spec d "["); [done|]. destruct (Ascii.eqb_spec d "]"); done.
Qed.



Lemma findFrom_first s m rest :
  regexp.FindAllString s = m :: rest ->
  exists pre body post,
    s = (pre ++ "[" ++ body ++ "]" ++ post)%string /\ m = ("[" ++ body ++ "]")%string
    /\ hasByte "[" body = false /\ hasByte "]" body = false.
Proof.
  unfold regexp.FindAllString.
  induction s as [|d s IH]; simpl; [done|].
  unfold regexp.lbracket.
  destruct (Ascii.eqb_spec d "[") as [->|Hl].
  - destruct (regexp.matchTail s) as [m'|] eqn:E.
    + intros [= <- _]. apply matchTail_shape in E as (body & post & -> & -> & Hb).
      by exists EmptyString, body, post.
    + intros H. destruct (IH H) as (pre & body & post & -> & -> & Hb).
      by exists (String "[" pre), body, post.
  - intros H. destruct (IH H) as (pre & body & post & -> & -> & Hb).
    by exists (String d pre), body, post.
Qed.

(** *** Trimming a match *)

Lemma TrimRight_keeps t c cutset :
  strings.inCutset c cutset = false ->
  strings.TrimRight (t ++ String c "") cutset = (t ++ String c "")%string.
Proof.
  intros Hc. induction t as [|a t IH]; simpl.
  - by rewrite Hc.
  - rewrite IH. by destruct t.
Qed.

Lemma TrimRight_closing body :
  hasByte "]" body = false -> strings.TrimRight (body ++ "]") "]" = body.
Proof.
  induction body as [|a t IH]; simpl; [done|].
  destruct (Ascii.eqb_spec a "]") as [->|Ha]; [done|]. simpl.
  intros H. rewrite (IH H). destruct t; [|done].
  simpl. destruct (Ascii.eqb_spec a "]"); done.
Qed.

Lemma Trim_match body :
  body <> EmptyString -> hasByte "[" body = false -> hasByte "]" body = false ->
  strings.Trim (strings.Trim ("[" ++ body ++ "]") "[") "]" = body.
Proof.
  intros Hne Hl Hr. destruct body as [|b body]; [done|].
  simpl in Hl, Hr.
  apply orb_false_iff in Hl as [Hl Hl']. apply orb_false_iff in Hr as [Hr Hr'].
  assert (strings.Trim ("[" ++ String b body ++ "]") "[" = (String b body ++ "]")%string) as ->.
  { unfold strings.Trim.
    replace (strings.TrimLeft ("[" ++ String b body ++ "]") "[")
      with (String b body ++ "]")%string.
    - by apply TrimRight_keeps.
    - simpl. by rewrite Hl. }
  unfold strings.Trim.
  replace (strings.TrimLeft (String b body ++ "]") "]") with (String b body ++ "]")%string.
  - apply TrimRight_closing. simpl. by rewrite Hr, Hr'.
  - simpl. by rewrite Hr.
Qed.


(** Away from the sequence marker, the key read between the brackets is
    never empty. *)
Lemma getBetweenBrackets_nonempty s key :
  fieldIsASlice s = false -> getBetweenBrackets s = Some key -> key <> EmptyString.
Proof.
  unfold getBetweenBrackets, fieldIsASlice.
  destruct (regexp.FindAllString s) as [|m rest] eqn:E; [done|].
  intros Hs [= <-].
  apply findFrom_first in E as (pre & body & post & -> & -> & Hl & Hr).
  destruct body as [|b body].
  - pose proof (Contains_app pre "[]" post) as Hc.
    change (pre ++ "[" ++ "" ++ "]" ++ post)%string with (pre ++ "[]" ++ post)%string in Hs.
    congruence.
  - rewrite Trim_match; done.
Qed.


(** The three branches of [parseFieldType]. *)
Lemma parseFieldType_slice s :
  fieldIsASlice s = true ->
  exists parts1, strings.Split s "]" !! 1%nat = Some parts1
    /\ parseFieldType s = Some (strings.TrimPrefix parts1 "*", true, false, EmptyString).
Proof.
  intros Hs. unfold parseFieldType. rewrite Hs.
  destruct (Split_second_is_Some s) as [parts1 Hp].
  { unfold fieldIsASlice in Hs. by apply Contains_second_byte in Hs. }
  exists parts1. by rewrite Hp.
Qed.


Lemma parseFieldType_map_key s name isSlice key :
  parseFieldType s = Some (name, isSlice, true, key) -> key <> EmptyString.
Proof.
  unfold parseFieldType.
  destruct (fieldIsASlice s) eqn:Hs.
  - destruct (strings.Split s "]" !! 1%nat); simpl; [|done]. by intros [=].
  - destruct (fieldIsAMap s); [|by intros [=]].
    destruct (strings.Split s "]" !! 1%nat); simpl; [|done].
    destruct (getBetweenBrackets s) as [k|] eqn:Hk; simpl; [|done].
    intros [= _ _ <-]. by eapply getBetweenBrackets_nonempty.
Qed.

End ClassifierFacts.

(** *** The classifier on the types of the package's tests *)

Example parse_slice : parseFieldType "[]*StructVal" = Some ("StructVal", true, false, "").
Proof. reflexivity. Qed.

Example parse_map :
  parseFieldType "map[string]*StructVal" = Some ("StructVal", false, true, "string").
Proof. reflexivity. Qed.

Example parse_plain : parseFieldType "*StructVal" = Some ("StructVal", false, false, "").
Proof. reflexivity. Qed.

Example parse_scalar_map : parseFieldType "map[string]string" = Some ("string", false, true, "string").
Proof. reflexivity. Qed.

Example parse_nested : parseFieldType "[]map[string]*Foo" = Some ("map[string", true, false, "").
Proof. reflexivity. Qed.

Example parse_map_of_slices : parseFieldType "map[string][]string" = Some ("[", true, false, "").
Proof. reflexivity. Qed.

Example parse_unclosed_map : parseFieldType "map[string" = None.
Proof. reflexivity. Qed.

Example parse_closed_before_map : parseFieldType "]map[string" = None.
Proof. reflexivity. Qed.

Example split_pieces : strings.Split "map[string]*StructVal" "]" = ["map[string"; "*StructVal"].
Proof. reflexivity. Qed.

Example find_all : regexp.FindAllString "a[b]c[[d]e]" = ["[b]"; "[d]"].
Proof. reflexivity. Qed.

Example has_suffix : strings.HasSuffix "PingRequest" "Request" = true
                     /\ strings.HasSuffix "est" "Request" = false.
Proof. split; reflexivity. Qed.

(** C10. A type text holding both the sequence marker and the associative
    marker is classified as a sequence: the sequence test comes first, so
    the results are [isSlice = true], [isMap = false] and an empty key
    type, with the name read from the second piece of the split. *)
Theorem parseFieldType_slice_before_map (typeName : string) :
  fieldIsASlice typeName = true ->
  fieldIsAMap typeName = true ->
  exists parts1,
    strings.Split typeName "]" !! 1%nat = Some parts1
    /\ parseFieldType typeName = Some (strings.TrimPrefix parts1 "*", true, false, EmptyString).
Proof. intros Hs _. by apply parseFieldType_slice. Qed.

Lemma parseFieldType_slice_before_map_witness :
  exists parts1,
    strings.Split "[]map[string]*Foo" "]" !! 1%nat = Some parts1
    /\ parseFieldType "[]map[string]*Foo"
       = Some (strings.TrimPrefix parts1 "*", true, false, EmptyString).
Proof. apply parseFieldType_slice_before_map; reflexivity. Defined.




(** ** The classifier on the three supported shapes *)

Section ShapeFacts.

Implicit Types (s t u k v : string) (c : ascii).

Lemma HasPrefix_byte s t c :
  strings.HasPrefix s t = true -> hasByte c t = true -> hasByte c s = true.
Proof.
  revert s. induction t as [|d t IH]; intros s; [done|].
  destruct s as [|e s]; [done|]. rewrite HasPrefix_cons. simpl.
  intros [Hd Hp]%andb_true_iff [Hc|Hc]%orb_true_iff.
  - apply Ascii.eqb_eq in Hd as ->. by rewrite Hc.
  - rewrite (IH s Hp Hc). apply orb_true_r.
Qed.

(** Every byte of a substring is a byte of the string. *)
Lemma Contains_byte s t c :
  strings.Contains s t = true -> hasByte c t = true -> hasByte c s = true.
Proof.
  induction s as [|e s IH].
  - simpl. rewrite orb_false_r. intros Hp Hc. by apply (HasPrefix_byte "" t c).
  - rewrite Contains_cons. intros [Hp|Hs]%orb_true_iff Hc.
    + by apply (HasPrefix_byte _ t c).
    + simpl. rewrite (IH Hs Hc). apply orb_true_r.
Qed.

Lemma no_bracket_no_markers s :
  hasByte "[" s = false -> fieldIsASlice s = false /\ fieldIsAMap s = false.
Proof.
  intros H. unfold fieldIsASlice, fieldIsAMap. split.
  - destruct (strings.Contains s "[]") eqn:E; [|done].
    by rewrite (Contains_byte s "[]" "[" E eq_refl) in H.
  - destruct (strings.Contains s "map[") eqn:E; [|done].
    by rewrite (Contains_byte s "map[" "[" E eq_refl) in H.
Qed.

Lemma splitFrom_piece acc a b :
  hasByte "]" a = false ->
  strings.splitFrom "]" 0 acc (a ++ "]" ++ b)
  = (acc ++ a)%string :: strings.splitFrom "]" 0 "" b.
Proof.
  revert acc. induction a as [|d a IH]; intros acc.
  - intros _. simpl String.append. by rewrite splitFrom_closing, string_app_empty_r.
  - intros Ha. simpl in Ha. apply orb_false_iff in Ha as [Hd Ha].
    apply Ascii.eqb_neq in Hd.
    change (String d a ++ "]" ++ b)%string with (String d (a ++ "]" ++ b)).
    rewrite splitFrom_other by done. rewrite IH by done.
    by rewrite string_app_assoc.
Qed.

Lemma matchTail_body k rest :
  hasByte "[" k = false -> hasByte "]" k = false ->
  regexp.matchTail (k ++ "]" ++ rest) = Some (k ++ "]")%string.
Proof.
  induction k as [|d k IH]; [done|].
  intros Hk1 Hk2. simpl in Hk1, Hk2.
  apply orb_false_iff in Hk1 as [Hl Hk1]. apply orb_false_iff in Hk2 as [Hr Hk2].
  change (String d k ++ "]" ++ rest)%string with (String d (k ++ "]" ++ rest)).
  cbn [regexp.matchTail]. unfold regexp.rbracket, regexp.lbracket.
  rewrite Hl, Hr. by rewrite (IH Hk1 Hk2).
Qed.

Lemma findFrom_prefix pre s :
  hasByte "[" pre = false -> regexp.findFrom 0 (pre ++ s) = regexp.findFrom 0 s.
Proof.
  induction pre as [|d pre IH]; [done|].
  intros H. simpl in H. apply orb_false_iff in H as [Hd H].
  change (String d pre ++ s)%string with (String d (pre ++ s)).
  cbn [regexp.findFrom]. unfold regexp.lbracket. by rewrite Hd, IH.
Qed.

(** The text between the first bracket pair: any bracket-free text may
    come before the pair. *)
Lemma getBetweenBrackets_first pre k rest :
  k <> EmptyString ->
  hasByte "[" pre = false -> hasByte "[" k = false -> hasByte "]" k = false ->
  getBetweenBrackets (pre ++ "[" ++ k ++ "]" ++ rest) = Some k.
Proof.
  intros Hne Hpre Hk1 Hk2. unfold getBetweenBrackets, regexp.FindAllString.
  rewrite findFrom_prefix by done.
  change ("[" ++ k ++ "]" ++ rest)%string with (String "[" (k ++ "]" ++ rest)).
  cbn [regexp.findFrom]. unfold regexp.lbracket. rewrite Ascii.eqb_refl.
  rewrite (matchTail_body k rest Hk1 Hk2).
  f_equal. by apply Trim_match.
Qed.

End ShapeFacts.

(** X1. A scalar or a single struct: a type text without an opening bracket
    is neither sequence nor associative, and its name is the text without
    one leading star. *)
Theorem parseFieldType_plain (typeName : string) :
  hasByte "[" typeName = false ->
  parseFieldType typeName = Some (strings.TrimPrefix typeName "*", false, false, EmptyString).
Proof.
  intros H. destruct (no_bracket_no_markers typeName H) as [Hs Hm].
  unfold parseFieldType. by rewrite Hs, Hm.
Qed.

Lemma parseFieldType_plain_witness :
  parseFieldType "*StructVal" = Some (strings.TrimPrefix "*StructVal" "*", false, false, EmptyString).
Proof. apply parseFieldType_plain. reflexivity. Defined.

(** X2. A sequence type [[]elem], the element text holding no closing bracket,
    is classified as a sequence of the element name, one leading star
    removed; the key type stays empty. *)
Theorem parseFieldType_sequence (elem : string) :
  hasByte "]" elem = false ->
  parseFieldType ("[]" ++ elem)
  = Some (strings.TrimPrefix elem "*", true, false, EmptyString).
Proof.
  intros He. unfold parseFieldType.
  assert (fieldIsASlice ("[]" ++ elem) = true) as ->.
  { apply Contains_of_prefix, (HasPrefix_app "[]" elem). }
  unfold strings.Split.
  change ("[]" ++ elem)%string with ("[" ++ "]" ++ elem)%string.
  rewrite splitFrom_piece by done. rewrite splitFrom_no_sep by done. done.
Qed.

Lemma parseFieldType_sequence_witness :
  parseFieldType ("[]" ++ "*StructVal")
  = Some (strings.TrimPrefix "*StructVal" "*", true, false, EmptyString).
Proof. apply parseFieldType_sequence. reflexivity. Defined.

(** X3. An associative type [map[key]value], the key not empty and neither
    key nor value holding a bracket, is classified as associative with
    that key type and the value name, one leading star removed. *)
Theorem parseFieldType_associative (key value : string) :
  key <> EmptyString ->
  hasByte "[" key = false -> hasByte "]" key = false ->
  hasByte "[" value = false -> hasByte "]" value = false ->
  parseFieldType ("map[" ++ key ++ "]" ++ value)
  = Some (strings.TrimPrefix value "*", false, true, key).
Proof.
  intros Hne Hk1 Hk2 Hv1 Hv2. unfold parseFieldType.
  assert (fieldIsASlice ("map[" ++ key ++ "]" ++ value) = false) as ->.
  { assert (hasByte "[" (key ++ "]" ++ value) = false) as Hrest.
    { rewrite !hasByte_app, Hk1, Hv1. done. }
    apply no_bracket_no_markers in Hrest as [Hrest _].
    unfold fieldIsASlice in *. destruct key as [|b key]; [done|].
    simpl in Hk2. apply orb_false_iff in Hk2 as [Hb Hk2]. rewrite Ascii.eqb_sym in Hb.
    change ("map[" ++ String b key ++ "]" ++ value)%string
      with (String "m" (String "a" (String "p" (String "[" (String b key ++ "]" ++ value))))).
    do 4 rewrite Contains_cons. rewrite Hrest.
    change (String b key ++ "]" ++ value)%string with (String b (key ++ "]" ++ value)).
    rewrite !HasPrefix_cons, Hb. done. }
  assert (fieldIsAMap ("map[" ++ key ++ "]" ++ value) = true) as ->.
  { apply Contains_of_prefix, (HasPrefix_app "map[" (key ++ "]" ++ value)). }
  assert (strings.Split ("map[" ++ key ++ "]" ++ value) "]" !! 1%nat = Some value) as ->.
  { unfold strings.Split.
    replace ("map[" ++ key ++ "]" ++ value)%string with (("map[" ++ key) ++ "]" ++ value)%string
      by (by rewrite string_app_assoc).
    rewrite splitFrom_piece.
    - by rewrite splitFrom_no_sep.
    - rewrite hasByte_app. by rewrite Hk2. }
  assert (getBetweenBrackets ("map[" ++ key ++ "]" ++ value) = Some key) as ->.
  { by apply (getBetweenBrackets_first "map" key value). }
  done.
Qed.

Lemma parseFieldType_associative_witness :
  parseFieldType ("map[" ++ "string" ++ "]" ++ "*StructVal")
  = Some (strings.TrimPrefix "*StructVal" "*", false, true, "string").
Proof. apply parseFieldType_associative; [discriminate|reflexivity..]. Defined.

(** X4. Whatever the classifier returns, the shape is not sequence and
    associative at once, and the key type is non-empty exactly for an
    associative shape. *)
Theorem parseFieldType_shape (typeName name : string) (isSlice isMap : bool) (key : string) :
  parseFieldType typeName = Some (name, isSlice, isMap, key) ->
  isSlice && isMap = false /\ (isMap = true <-> key <> EmptyString).
Proof.
  intros H. split.
  - unfold parseFieldType in H. destruct (fieldIsASlice typeName).
    + destruct (strings.Split typeName "]" !! 1%nat); simpl in H; [|done]. by injection H as _ <- <- _.
    + destruct (fieldIsAMap typeName); [|by injection H as _ <- <- _].
      destruct (strings.Split typeName "]" !! 1%nat); simpl in H; [|done].
      destruct (getBetweenBrackets typeName); simpl in H; [|done]. by injection H as _ <- <- _.
  - split.
    + intros ->. by eapply parseFieldType_map_key.
    + intros Hk. unfold parseFieldType in H. destruct (fieldIsASlice typeName).
      * destruct (strings.Split typeName "]" !! 1%nat); simpl in H; [|done].
        injection H as _ _ _ <-. done.
      * destruct (fieldIsAMap typeName); [|injection H as _ _ _ <-; done].
        destruct (strings.Split typeName "]" !! 1%nat); simpl in H; [|done].
        destruct (getBetweenBrackets typeName); simpl in H; [|done]. by injection H as _ _ <- _.
Qed.

Lemma parseFieldType_shape_witness :
  parseFieldType "map[string]*StructVal" = Some ("StructVal", false, true, "string")
  /\ false && true = false /\ (true = true <-> "string" <> EmptyString).
Proof.
  split; [reflexivity|].
  apply (parseFieldType_shape "map[string]*StructVal" "StructVal" false true "string").
  reflexivity.
Defined.

(** ** The recursive walk *)

Section OutcomeFacts.

Context {A B : Type}.

Lemma bind_Ok (m : outcome A) (k : A -> outcome B) (b : B) :
  m ≫= k = Ok b -> exists a, m = Ok a /\ k a = Ok b.
Proof. destruct m as [a| |]; simpl; [|done..]. intros H. by exists a. Qed.

Lemma ofOption_Ok (o : option A) (a : A) : ofOption o = Ok a -> o = Some a.
Proof. destruct o; simpl; congruence. Qed.

End OutcomeFacts.

Section RegistryFacts.

Implicit Types (st : GenState) (name : string) (ss : structState).

Lemma marked_visited ss : Visited ss = true -> marked ss = ss.
Proof. destruct ss as [s v]. simpl. by intros ->. Qed.

Lemma setVisited_Ok name st st' :
  setVisited name st = Ok st' ->
  exists ss, manifest st !! name = Some ss
    /\ st' = {| manifest := <[name := marked ss]> (manifest st);
                log := log st ++ [MarkVisited name] |}.
Proof.
  unfold setVisited. destruct (manifest st !! name) as [ss|] eqn:E; [|done].
  intros [= <-]. by exists ss.
Qed.

Lemma visited_unvisited st name : visited st name -> unvisited st name -> False.
Proof. intros (ss & H1 & H2) (ss' & H3 & H4). congruence. Qed.

Lemma visited_registered st name : visited st name -> registered st name.
Proof. intros (ss & H & _). by exists ss. Qed.

#[global] Instance Evolves_preorder : PreOrder Evolves.
Proof.
  split.
  - intros st. split; [|done|].
    + intros name ss H. by exists ss.
    + exists []. by rewrite app_nil_r.
  - intros st1 st2 st3 [E1 A1 [n1 L1]] [E2 A2 [n2 L2]]. split.
    + intros name ss H. destruct (E1 _ _ H) as (ss' & H' & HS & HV).
      destruct (E2 _ _ H') as (ss'' & H'' & HS' & HV').
      exists ss''. split; [done|]. split; [congruence|auto].
    + auto.
    + exists (n1 ++ n2). by rewrite L2, L1, app_assoc.
Qed.

(** Marking an entry is a step forward. *)
Lemma Evolves_mark st name ss new :
  manifest st !! name = Some ss ->
  Evolves st {| manifest := <[name := marked ss]> (manifest st); log := log st ++ new |}.
Proof.
  intros H. split; simpl.
  - intros k ss' Hk. destruct (decide (name = k)) as [<-|Hne].
    + rewrite lookup_insert_eq. exists (marked ss). split; [done|].
      split; [simpl; congruence|done].
    + rewrite lookup_insert_ne by done. by exists ss'.
  - intros k Hk. rewrite lookup_insert_ne; [done|]. congruence.
  - by exists new.
Qed.

Lemma Evolves_visited st st' name : Evolves st st' -> visited st name -> visited st' name.
Proof.
  intros [E _ _] (ss & H & HV). destruct (E _ _ H) as (ss' & H' & _ & HV').
  exists ss'. auto.
Qed.

Lemma Evolves_registered st st' name : Evolves st st' -> registered st name <-> registered st' name.
Proof.
  intros [E A _]. unfold registered. split.
  - intros [ss H]. destruct (E _ _ H) as (ss' & H' & _). by exists ss'.
  - intros [ss' H']. destruct (manifest st !! name) as [ss|] eqn:H; [by exists ss|].
    rewrite (A _ H) in H'. done.
Qed.

Lemma Evolves_wellKeyed st st' : Evolves st st' -> wellKeyed st -> wellKeyed st'.
Proof.
  intros [E A _] W name ss' H'.
  destruct (manifest st !! name) as [ss|] eqn:H.
  - destruct (E _ _ H) as (ss'' & H'' & HS & _).
    assert (ss'' = ss') as -> by congruence. rewrite HS. by apply W.
  - rewrite (A _ H) in H'. done.
Qed.

Lemma Evolves_classify st st' f :
  Evolves st st' -> classify (manifest st) f = classify (manifest st') f.
Proof.
  intros Ev. unfold classify. destruct (parseFieldType (parser.VarType f)) as [p|]; [|done].
  simpl. do 2 f_equal. apply bool_decide_ext. apply (Evolves_registered _ _ _ Ev).
Qed.

Lemma Evolves_recordField st st' fm f :
  Evolves st st' -> recordField (manifest st) fm f = recordField (manifest st') fm f.
Proof. intros Ev. unfold recordField. by rewrite (Evolves_classify _ _ _ Ev). Qed.

Lemma Evolves_foldl_recordField st st' fm vars :
  Evolves st st' ->
  foldl (recordField (manifest st)) fm vars = foldl (recordField (manifest st')) fm vars.
Proof.
  intros Ev. revert fm. induction vars as [|f vars IH]; intros fm; simpl; [done|].
  by rewrite IH, (Evolves_recordField _ _ _ _ Ev).
Qed.

Lemma Evolves_fieldManifestOf st st' vars :
  Evolves st st' -> fieldManifestOf (manifest st) vars = fieldManifestOf (manifest st') vars.
Proof. apply Evolves_foldl_recordField. Qed.

Lemma Evolves_refersTo st st' f name :
  Evolves st st' -> refersTo (manifest st) f name <-> refersTo (manifest st') f name.
Proof.
  intros Ev. unfold refersTo.
  pose proof (Evolves_registered _ _ name Ev) as Hr. unfold registered in Hr.
  split; intros (a & b & c & H1 & H2); exists a, b, c; (split; [done|]); by apply Hr.
Qed.

Lemma retained_cons f vars :
  retained (f :: vars)
  = if decide (parser.VarName f ∈ pbNativeFields) then retained vars else f :: retained vars.
Proof.
  unfold retained. rewrite filter_cons.
  destruct (decide (parser.VarName f ∈ pbNativeFields)) as [H|H];
    destruct (decide (parser.VarName f ∉ pbNativeFields)); done.
Qed.

End RegistryFacts.

Section WalkFacts.

Variable JsonTag : string -> string * string.
Variable order : MapOrder.
Variable g : GenerateDTOFromProtoGo.

(** [Q] holds of the root struct and its registry entry; below the
    root the walk takes its structs from the registry. *)
Variable Q : parser.Struct -> parser.Struct -> Prop.
Hypothesis Q_refl : forall s, Q s s.

Local Abbreviation Step := (Step JsonTag order g Q).
Local Abbreviation Steps := (rtc Step).
Local Abbreviation entryOk := (entryOk Q).
Local Abbreviation WalkSpec := (WalkSpec JsonTag order g Q).

Lemma Step_Evolves st st' : Step st st' -> Evolves st st'.
Proof. intros [st0 cur ss H _ _ _|st0 name ss H _]; by apply Evolves_mark. Qed.

Lemma Steps_Evolves st st' : Steps st st' -> Evolves st st'.
Proof.
  induction 1 as [|st1 st2 st3 H _ IH]; [done|].
  etrans; [by apply Step_Evolves|done].
Qed.

Lemma Steps_wellKeyed st st' : Steps st st' -> wellKeyed st -> wellKeyed st'.
Proof. intros H. apply Evolves_wellKeyed, Steps_Evolves, H. Qed.

(** *** One turn of the loop *)

Lemma fieldStep_skip recurse w f :
  parser.VarName f ∈ pbNativeFields -> fieldStep JsonTag recurse w f = Ok w.
Proof. intros H. unfold fieldStep. by rewrite decide_True. Qed.

Lemma fieldStep_Ok recurse w f w' :
  parser.VarName f ∉ pbNativeFields ->
  fieldStep JsonTag recurse w f = Ok w' ->
  exists fs,
    classify (manifest (wState w)) f = Some fs
    /\ wFields w' = <[parser.VarName f := fs]> (wFields w)
    /\ wDTO w' = wDTO w ++ [member JsonTag f]
    /\ match manifest (wState w) !! TypeName fs with
       | None => wState w' = wState w
       | Some ss =>
           if Visited ss then wState w' = wState w
           else exists st1, recurse (Struct ss) (wState w) = Ok st1
                            /\ setVisited (TypeName fs) st1 = Ok (wState w')
       end.
Proof.
  intros Hn. unfold fieldStep. rewrite decide_False by done.
  intros ([[[fieldType isSlice] isMap] mapKeyType] & Hp%ofOption_Ok & H)%bind_Ok.
  unfold classify. rewrite Hp. simpl.
  destruct (manifest (wState w) !! fieldType) as [ss|] eqn:E.
  - eexists. split; [reflexivity|]. simpl. rewrite E.
    destruct (Visited ss) eqn:V.
    + injection H as <-. done.
    + apply bind_Ok in H as (st1 & H1 & H).
      apply bind_Ok in H as (st2 & H2 & H). injection H as <-. simpl.
      split; [done|]. split; [done|]. by exists st1.
  - eexists. split; [reflexivity|]. simpl. rewrite E.
    injection H as <-. done.
Qed.

(** *** The loop and the walk *)

Lemma classify_refersTo M f fs name :
  classify M f = Some fs -> refersTo M f name -> TypeName fs = name /\ is_Some (M !! name).
Proof.
  unfold classify. intros Hc (a & b & c & Hp & Hr). rewrite Hp in Hc.
  simpl in Hc. injection Hc as <-. done.
Qed.

Lemma fieldStep_Steps recurse w f w' :
  WalkSpec recurse -> wellKeyed (wState w) ->
  parser.VarName f ∉ pbNativeFields ->
  fieldStep JsonTag recurse w f = Ok w' ->
  Steps (wState w) (wState w')
  /\ forall name, refersTo (manifest (wState w)) f name -> visited (wState w') name.
Proof.
  intros Hrec W Hn H.
  destruct (fieldStep_Ok _ _ _ _ Hn H) as (fs & Hc & _ & _ & Hm).
  destruct (manifest (wState w) !! TypeName fs) as [ss|] eqn:E.
  - destruct (Visited ss) eqn:V.
    + rewrite Hm. split; [done|]. intros name Hr.
      destruct (classify_refersTo _ _ _ _ Hc Hr) as [<- _]. by exists ss.
    + destruct Hm as (st1 & H1 & H2).
      assert (entryOk (Struct ss) (wState w)) as HQ.
      { intros ss0 E0. rewrite (W _ _ E) in E0.
        assert (ss0 = ss) as -> by congruence. apply Q_refl. }
      destruct (Hrec _ _ _ W HQ H1) as [S1 V1].
      rewrite (W _ _ E) in V1.
      apply setVisited_Ok in H2 as (ss1 & E1 & ->).
      assert (Visited ss1 = true) as V1'.
      { destruct V1 as (ss1' & E1' & V1'). congruence. }
      split.
      * eapply rtc_r; [exact S1|]. by apply Step_mark.
      * intros name Hr. destruct (classify_refersTo _ _ _ _ Hc Hr) as [<- _].
        exists (marked ss1). simpl. by rewrite lookup_insert_eq.
  - rewrite Hm. split; [done|]. intros name Hr.
    destruct (classify_refersTo _ _ _ _ Hc Hr) as [<- [ss Hs]]. congruence.
Qed.

Lemma loop_Steps recurse vars w w' :
  WalkSpec recurse -> wellKeyed (wState w) ->
  foldOutcome (fieldStep JsonTag recurse) vars w = Ok w' ->
  Steps (wState w) (wState w')
  /\ wDTO w' = wDTO w ++ (member JsonTag <$> retained vars)
  /\ wFields w' = foldl (recordField (manifest (wState w))) (wFields w) (retained vars)
  /\ (forall f, f ∈ retained vars -> is_Some (classify (manifest (wState w)) f))
  /\ (forall f name, f ∈ retained vars -> refersTo (manifest (wState w)) f name ->
                     visited (wState w') name).
Proof.
  intros Hrec. revert w. induction vars as [|f vars IH]; intros w W H.
  - simpl in H. injection H as <-.
    change (retained []) with (@nil parser.NamedTypeValue). simpl.
    rewrite app_nil_r. do 3 (split; [done|]).
    split; [intros f Hf|intros f name Hf]; by apply elem_of_nil in Hf.
  - simpl in H. apply bind_Ok in H as (w1 & H1 & H).
    rewrite retained_cons.
    destruct (decide (parser.VarName f ∈ pbNativeFields)) as [Hn|Hn].
    + rewrite fieldStep_skip in H1 by done. injection H1 as <-. by apply IH.
    + destruct (fieldStep_Steps _ _ _ _ Hrec W Hn H1) as [S1 V1].
      destruct (fieldStep_Ok _ _ _ _ Hn H1) as (fs & Hc & Hf & Hd & _).
      pose proof (Steps_Evolves _ _ S1) as Ev1.
      destruct (IH w1 (Steps_wellKeyed _ _ S1 W) H) as (S2 & D2 & F2 & C2 & V2).
      pose proof (Steps_Evolves _ _ S2) as Ev2.
      split; [by etrans|]. split; [|split; [|split]].
      * rewrite D2, Hd, fmap_cons, <- app_assoc. done.
      * rewrite F2, Hf. simpl foldl.
        replace (recordField (manifest (wState w)) (wFields w) f)
          with (<[parser.VarName f := fs]> (wFields w))
          by (unfold recordField; by rewrite Hc).
        symmetry. by apply Evolves_foldl_recordField.
      * intros f' [->|Hf']%elem_of_cons; [by rewrite Hc|].
        rewrite (Evolves_classify _ _ _ Ev1). by apply C2.
      * intros f' name [->|Hf']%elem_of_cons Hr.
        -- eapply Evolves_visited; [exact Ev2|]. by apply V1.
        -- apply (V2 f'); [done|]. by apply (Evolves_refersTo _ _ _ _ Ev1).
Qed.

Lemma finishStruct_Ok name w st' :
  finishStruct order g name w = Ok st' ->
  exists ss, manifest (wState w) !! name = Some ss
    /\ st' = {| manifest := <[name := marked ss]> (manifest (wState w));
                log := log (wState w) ++
                  [ Emit (DStruct name (wDTO w)); MarkVisited name;
                    Emit (fromPBFunction order g name (wFields w));
                    Emit DNewLine; Emit DNewLine;
                    Emit (toPBFunction order g name (wFields w));
                    Emit DNewLine ] |}.
Proof.
  unfold finishStruct. intros (st2 & H2 & H)%bind_Ok.
  apply setVisited_Ok in H2 as (ss & E & ->). injection H as <-.
  exists ss. split; [done|].
  unfold genBindingToPB, genBindingFromPB, emit. simpl.
  f_equal. by rewrite <- !app_assoc.
Qed.

(** A call on an unvisited struct: the loop, then the unit of the struct
    added to the state the loop ends in. *)
Lemma genDTORecursive_unvisited fuel cur st st' ss :
  WalkSpec (genDTORecursive JsonTag order g fuel) ->
  wellKeyed st -> entryOk cur st ->
  manifest st !! parser.Name cur = Some ss -> Visited ss = false ->
  genDTORecursive JsonTag order g (S fuel) cur st = Ok st' ->
  exists w ss1,
    foldOutcome (fieldStep JsonTag (genDTORecursive JsonTag order g fuel)) (parser.Vars cur)
      {| wState := st; wFields := ∅; wDTO := [] |} = Ok w
    /\ Steps st (wState w)
    /\ manifest (wState w) !! parser.Name cur = Some ss1
    /\ Step (wState w) st'
    /\ (forall f name, f ∈ retained (parser.Vars cur) ->
                       refersTo (manifest (wState w)) f name -> visited (wState w) name)
    /\ st' = {| manifest := <[parser.Name cur := marked ss1]> (manifest (wState w));
                log := log (wState w)
                       ++ unitEvents JsonTag order g (manifest (wState w)) cur |}.
Proof.
  intros Hrec W HQ E V H. simpl in H. rewrite E in H. simpl in H. rewrite V in H.
  apply bind_Ok in H as (w & Hl & Hf).
  destruct (loop_Steps _ _ {| wState := st; wFields := ∅; wDTO := [] |} _ Hrec W Hl)
    as (S1 & D1 & F1 & C1 & V1). simpl in S1, D1, F1, C1, V1.
  pose proof (Steps_Evolves _ _ S1) as Ev1.
  apply finishStruct_Ok in Hf as (ss1 & E1 & ->).
  assert (forall f name, f ∈ retained (parser.Vars cur) ->
                         refersTo (manifest (wState w)) f name -> visited (wState w) name)
    as HV.
  { intros f name Hf Hr. apply (V1 f); [done|]. by apply (Evolves_refersTo _ _ _ _ Ev1). }
  assert ({| manifest := <[parser.Name cur := marked ss1]> (manifest (wState w));
             log := log (wState w)
                    ++ [ Emit (DStruct (parser.Name cur) (wDTO w));
                         MarkVisited (parser.Name cur);
                         Emit (fromPBFunction order g (parser.Name cur) (wFields w));
                         Emit DNewLine; Emit DNewLine;
                         Emit (toPBFunction order g (parser.Name cur) (wFields w));
                         Emit DNewLine ] |}
          = {| manifest := <[parser.Name cur := marked ss1]> (manifest (wState w));
               log := log (wState w)
                      ++ unitEvents JsonTag order g (manifest (wState w)) cur |}) as ->.
  { rewrite D1, F1. simpl.
    change (foldl (recordField (manifest st)) ∅ (retained (parser.Vars cur)))
      with (fieldManifestOf (manifest st) (parser.Vars cur)).
    by rewrite (Evolves_fieldManifestOf _ _ _ Ev1). }
  exists w, ss1. do 3 (split; [done|]). split; [|done].
  apply (Step_unit JsonTag order g Q (wState w) cur ss1); [done| |done|].
  - intros f Hf. rewrite <- (Evolves_classify _ _ _ Ev1). by apply C1.
  - destruct (evolves_entry _ _ Ev1 _ _ E) as (ss' & E' & HS & _).
    assert (ss' = ss1) as -> by congruence. rewrite HS. by apply HQ.
Qed.

Theorem genDTORecursive_Steps fuel cur st st' :
  wellKeyed st -> entryOk cur st ->
  genDTORecursive JsonTag order g fuel cur st = Ok st' ->
  Steps st st' /\ visited st' (parser.Name cur).
Proof.
  revert cur st st'. induction fuel as [|fuel IH]; intros cur st st' W HQ H; [done|].
  destruct (manifest st !! parser.Name cur) as [ss|] eqn:E;
    [|by simpl in H; rewrite E in H].
  destruct (Visited ss) eqn:V.
  - simpl in H. rewrite E in H. simpl in H. rewrite V in H. injection H as <-.
    split; [done|]. by exists ss.
  - destruct (genDTORecursive_unvisited fuel cur st st' ss) as (w & ss1 & _ & S1 & E1 & S2 & _ & ->);
      try done.
    split; [by eapply rtc_r|].
    exists (marked ss1). simpl. by rewrite lookup_insert_eq.
Qed.


End WalkFacts.

(** ** [Generate] *)

Section GenerateFacts.

Variable JsonTag : string -> string * string.
Variable order : MapOrder.
Variable g : GenerateDTOFromProtoGo.

Local Abbreviation Step := (Step JsonTag order g anyStruct).
Local Abbreviation Steps := (rtc Step).

(** *** The registry *)

Lemma foldl_register_lookup structures m name :
  foldl register m structures !! name
  = match last (filter (fun s => parser.Name s = name) structures) with
    | Some s => Some {| Struct := s; Visited := false |}
    | None => m !! name
    end.
Proof.
  revert m. induction structures as [|s structures IH]; intros m; simpl; [done|].
  rewrite IH, filter_cons. destruct (decide (parser.Name s = name)) as [<-|Hne].
  - rewrite last_cons.
    destruct (last (filter _ structures)); [done|].
    unfold register. by rewrite lookup_insert_eq.
  - destruct (last (filter _ structures)); [done|].
    unfold register. by rewrite lookup_insert_ne.
Qed.

Lemma buildManifest_lookup structures name :
  buildManifest structures !! name
  = (fun s => {| Struct := s; Visited := false |})
      <$> last (filter (fun s => parser.Name s = name) structures).
Proof.
  unfold buildManifest.
  change (foldl _ ∅ structures) with (foldl register ∅ structures).
  rewrite foldl_register_lookup.
  by destruct (last (filter _ structures)).
Qed.

Lemma buildManifest_Some structures name ss :
  buildManifest structures !! name = Some ss ->
  Struct ss ∈ structures /\ parser.Name (Struct ss) = name /\ Visited ss = false.
Proof.
  rewrite buildManifest_lookup.
  destruct (last (filter _ structures)) as [s|] eqn:E; [|done].
  intros [= <-]. simpl. apply last_Some_elem_of in E.
  apply list_elem_of_filter in E as [? ?]. done.
Qed.

Lemma buildManifest_registered structures s :
  s ∈ structures -> is_Some (buildManifest structures !! parser.Name s).
Proof.
  intros Hs. rewrite buildManifest_lookup.
  destruct (last (filter (fun s' => parser.Name s' = parser.Name s) structures)) as [s'|] eqn:E;
    [by eexists|].
  apply last_None in E.
  assert (s ∈ filter (fun s' => parser.Name s' = parser.Name s) structures) as Hin
    by (by apply list_elem_of_filter).
  rewrite E in Hin. by apply elem_of_nil in Hin.
Qed.

Lemma initialState_wellKeyed structures : wellKeyed (initialState structures).
Proof. intros name ss H. simpl in H. by apply buildManifest_Some in H as (_ & ? & _). Qed.

(** *** The loop over the structs *)

Lemma generateLoop_Steps fuel structures st st' :
  wellKeyed st ->
  foldOutcome (generateStep JsonTag order g fuel) structures st = Ok st' ->
  Steps st st'.
Proof.
  revert st. induction structures as [|s structures IH]; intros st W H; simpl in H.
  - by injection H as <-.
  - apply bind_Ok in H as (st1 & H1 & H). unfold generateStep in H1.
    destruct (selected g s).
    + apply (genDTORecursive_Steps _ _ _ anyStruct) in H1 as [S1 _]; [|done..].
      etrans; [exact S1|]. apply IH; [|done]. by eapply Steps_wellKeyed.
    + injection H1 as <-. by apply IH.
Qed.

Lemma generateStructs_Steps fuel structures st :
  generateStructs JsonTag order g fuel structures = Ok st ->
  Steps (initialState structures) st.
Proof. apply generateLoop_Steps, initialState_wellKeyed. Qed.

(** A loop that selects no struct leaves the state as it is. *)
Lemma generateLoop_none_selected fuel structures st :
  (forall s, s ∈ structures -> selected g s = false) ->
  foldOutcome (generateStep JsonTag order g fuel) structures st = Ok st.
Proof.
  induction structures as [|s structures IH]; intros Hsel; simpl; [done|].
  assert (generateStep JsonTag order g fuel st s = Ok st) as ->.
  { unfold generateStep. by rewrite Hsel by apply list_elem_of_here. }
  simpl. apply IH. intros s' Hs'. apply Hsel. by apply list_elem_of_further.
Qed.

Lemma selected_absent_target s :
  targetPBStructName g <> EmptyString ->
  parser.Name s <> targetPBStructName g ->
  selected g s = false.
Proof.
  intros Ht Hn. unfold selected. rewrite decide_False by done.
  by apply bool_decide_eq_false_2.
Qed.

End GenerateFacts.

(** C1, as stated: a requested root struct that the schema does not hold
    makes [Generate] return an error and request no write. In a world
    where every collaborator succeeds, with the schema [Ping] and the
    target [Missing], [Generate] returns no error and hands the
    header-only file to [WriteFile]. *)
Lemma Generate_absent_target_writes :
  let g := testGenerator "Missing" in
  let structures := [emptyStruct "Ping"] in
  targetPBStructName g <> EmptyString
  /\ (forall s, s ∈ structures -> parser.Name s <> targetPBStructName g)
  /\ Generate jsonTagModel mapOrderDefault (quietWorld structures) g 0
     = Ok {| err := None;
             writeRequest := Some (dtoFileFullPath g,
                                   {| packageComment := headerComment; decls := [DNewLine] |}) |}.
Proof.
  split; [done|]. split; [|reflexivity].
  intros s ->%list_elem_of_singleton. done.
Qed.

(** C1, amended: when the folder, the existence check, the read and the
    parse succeed and a root struct is requested that the schema does not
    hold, [Generate] visits no struct and does not fail on its own: it hands
    the header-only file (package comment, one blank line) to [WriteFile]
    and returns what [WriteFile] returns, whatever the recursion budget. *)
Theorem Generate_absent_target (JsonTag : string -> string * string) (order : MapOrder)
    (world : World) (g : GenerateDTOFromProtoGo) (fuel : nat)
    (pbGoSrc : string) (pbGoFile : parser.File) :
  CreateFolderStructure world (dtoPackagePath g) = None ->
  fsExists world (protoGoFileFullPath g) = Success true ->
  fsReadFile world (protoGoFileFullPath g) = Success pbGoSrc ->
  Parse world pbGoSrc = Success pbGoFile ->
  targetPBStructName g <> EmptyString ->
  (forall s, s ∈ parser.Structures pbGoFile -> parser.Name s <> targetPBStructName g) ->
  let out := {| packageComment := headerComment; decls := [DNewLine] |} in
  Generate JsonTag order world g fuel
  = Ok {| err := ErrPassed <$> fsWriteFile world (dtoFileFullPath g) out true;
          writeRequest := Some (dtoFileFullPath g, out) |}.
Proof.
  intros Hc He Hr Hp Ht Hn. unfold Generate. rewrite Hc, He, Hr, Hp.
  unfold generateStructs. rewrite generateLoop_none_selected; [done|].
  intros s Hs. apply selected_absent_target; auto.
Qed.

Lemma Generate_absent_target_witness :
  let g := testGenerator "Missing" in
  let out := {| packageComment := headerComment; decls := [DNewLine] |} in
  Generate jsonTagModel mapOrderDefault (quietWorld [emptyStruct "Ping"]) g 3
  = Ok {| err := ErrPassed <$> fsWriteFile (quietWorld [emptyStruct "Ping"]) (dtoFileFullPath g) out true;
          writeRequest := Some (dtoFileFullPath g, out) |}.
Proof.
  apply (Generate_absent_target jsonTagModel mapOrderDefault (quietWorld [emptyStruct "Ping"])
           (testGenerator "Missing") 3 EmptyString {| parser.Structures := [emptyStruct "Ping"] |});
    try reflexivity.
  - done.
  - intros s ->%list_elem_of_singleton. done.
Defined.



(** ** The ways [Generate] returns *)

Section PathFacts.

Variable JsonTag : string -> string * string.
Variable order : MapOrder.
Variable g : GenerateDTOFromProtoGo.

Lemma generateStructs_begins fuel structures st :
  generateStructs JsonTag order g fuel structures = Ok st ->
  exists rest, code (log st) = DNewLine :: rest.
Proof.
  intros H%generateStructs_Steps.
  apply (Steps_Evolves JsonTag order g anyStruct) in H.
  destruct (evolves_log _ _ H) as [new ->]. simpl. eauto.
Qed.

Lemma selected_no_target s :
  targetPBStructName g = EmptyString ->
  selected g s
  = strings.HasSuffix (parser.Name s) "Request" || strings.HasSuffix (parser.Name s) "Response".
Proof. intros Ht. unfold selected. by rewrite decide_True. Qed.

End PathFacts.

(** X5. A call of [Generate] that returns has either requested no write and
    returns an error, or has requested one write: of the DTO file path,
    with the fixed package comment and declarations that start with the
    blank line, and its error is the one [WriteFile] gave. *)
Theorem Generate_write_or_error (JsonTag : string -> string * string) (order : MapOrder)
    (world : World) (g : GenerateDTOFromProtoGo) (fuel : nat) (r : Run) :
  Generate JsonTag order world g fuel = Ok r ->
  match writeRequest r with
  | None => is_Some (err r)
  | Some (path, out) =>
      path = dtoFileFullPath g
      /\ packageComment out = headerComment
      /\ (exists rest, decls out = DNewLine :: rest)
      /\ err r = ErrPassed <$> fsWriteFile world path out true
  end.
Proof.
  unfold Generate.
  destruct (CreateFolderStructure world (dtoPackagePath g)); [intros [= <-]; by eexists|].
  destruct (fsExists world (protoGoFileFullPath g)) as [[|]|]; [|intros [= <-]; by eexists..].
  destruct (fsReadFile world (protoGoFileFullPath g)) as [pbGoSrc|]; [|intros [= <-]; by eexists].
  destruct (Parse world pbGoSrc) as [pbGoFile|]; [|intros [= <-]; by eexists].
  intros (st & Hst & [= <-])%bind_Ok. simpl.
  split; [done|]. split; [done|]. split; [|done].
  by eapply generateStructs_begins.
Qed.

Lemma Generate_write_or_error_witness :
  is_Some (err {| err := Some (ErrPbGoMissing "test/pkg/grpc/pb/z_test.pb.go");
                  writeRequest := None |}).
Proof.
  apply (Generate_write_or_error jsonTagModel mapOrderDefault
           {| CreateFolderStructure := fun _ => None;
              fsExists := fun _ => Success false;
              fsReadFile := fun _ => Success EmptyString;
              Parse := fun _ => Success {| parser.Structures := [] |};
              fsWriteFile := fun _ _ _ => None |}
           (testGenerator "") 0
           {| err := Some (ErrPbGoMissing "test/pkg/grpc/pb/z_test.pb.go");
              writeRequest := None |}).
  reflexivity.
Defined.

(** X6. With no root struct requested and no struct whose name ends in
    [Request] or [Response], [Generate] visits nothing: when the steps
    before generation succeed it hands the header-only file to
    [WriteFile], whatever the fields of the structs are and whatever the
    recursion budget. *)
Theorem Generate_nothing_qualifies (JsonTag : string -> string * string) (order : MapOrder)
    (world : World) (g : GenerateDTOFromProtoGo) (fuel : nat)
    (pbGoSrc : string) (pbGoFile : parser.File) :
  CreateFolderStructure world (dtoPackagePath g) = None ->
  fsExists world (protoGoFileFullPath g) = Success true ->
  fsReadFile world (protoGoFileFullPath g) = Success pbGoSrc ->
  Parse world pbGoSrc = Success pbGoFile ->
  targetPBStructName g = EmptyString ->
  (forall s, s ∈ parser.Structures pbGoFile ->
             strings.HasSuffix (parser.Name s) "Request" = false
             /\ strings.HasSuffix (parser.Name s) "Response" = false) ->
  let out := {| packageComment := headerComment; decls := [DNewLine] |} in
  Generate JsonTag order world g fuel
  = Ok {| err := ErrPassed <$> fsWriteFile world (dtoFileFullPath g) out true;
          writeRequest := Some (dtoFileFullPath g, out) |}.
Proof.
  intros Hc He Hr Hp Ht Hn. unfold Generate. rewrite Hc, He, Hr, Hp.
  unfold generateStructs. rewrite generateLoop_none_selected; [done|].
  intros s Hs. rewrite selected_no_target by done.
  destruct (Hn s Hs) as [-> ->]. done.
Qed.

Lemma Generate_nothing_qualifies_witness :
  let g := testGenerator "" in
  let structures := [ {| parser.Name := "Something";
                         parser.Vars := [var "Broken" "map[string"] |} ] in
  let out := {| packageComment := headerComment; decls := [DNewLine] |} in
  Generate jsonTagModel mapOrderDefault (quietWorld structures) g 0
  = Ok {| err := ErrPassed <$> fsWriteFile (quietWorld structures) (dtoFileFullPath g) out true;
          writeRequest := Some (dtoFileFullPath g, out) |}.
Proof.
  intros g structures out.
  apply (Generate_nothing_qualifies jsonTagModel mapOrderDefault (quietWorld structures) g 0
           EmptyString {| parser.Structures := structures |}); try reflexivity.
  intros s ->%list_elem_of_singleton. split; reflexivity.
Defined.

(** ** Binding synthesizers *)

Section BindingFacts.

Import jen emitted.

Variable order : MapOrder.
Variable g : GenerateDTOFromProtoGo.

(** *** Bodies only grow at the end *)

Lemma fromPBField_funcBody b e :
  exists extra, funcBody (fromPBField g b e) = funcBody b ++ extra.
Proof.
  unfold fromPBField.
  destruct (IsStructType e.2), (IsMap e.2), (IsSlice e.2); simpl;
    eexists; first [reflexivity | symmetry; apply app_nil_r].
Qed.

Lemma toPBField_funcBody b e :
  exists extra, funcBody (toPBField g b e) = funcBody b ++ extra.
Proof.
  unfold toPBField.
  destruct (IsStructType e.2), (IsMap e.2), (IsSlice e.2); simpl;
    eexists; first [reflexivity | symmetry; apply app_nil_r].
Qed.

Lemma foldl_funcBody (step : Binding -> string * fieldState -> Binding) l b :
  (forall b e, exists extra, funcBody (step b e) = funcBody b ++ extra) ->
  exists extra, funcBody (foldl step b l) = funcBody b ++ extra.
Proof.
  intros Hstep. revert b. induction l as [|e l IH]; intros b; simpl.
  - exists []. by rewrite app_nil_r.
  - destruct (IH (step b e)) as [x ->]. destruct (Hstep b e) as [y ->].
    exists (y ++ x). by rewrite app_assoc.
Qed.

Lemma fromPBFunction_guard name fm :
  exists rest,
    fromPBFunction order g name fm
    = DFunction (name ++ "FromPB")
        [Stmt [Id "pb"; Id "*"; Qual (pbPackagePath g) name]]
        [Stmt [Id ""; Id "*"; Qual (dtoPackagePath g) name]]
        (nilGuard "pb" :: rest).
Proof.
  unfold fromPBFunction, fromPBBinding.
  destruct (foldl_funcBody (fromPBField g) (order FromPB name fm)
              {| funcBody := [nilGuard "pb"]; assignments := [] |} (fromPBField_funcBody))
    as [extra ->].
  simpl. eauto.
Qed.

Lemma toPBFunction_guard name fm :
  exists rest,
    toPBFunction order g name fm
    = DFunction (name ++ "ToPB")
        [Stmt [Id "orig"; Id "*"; Qual (dtoPackagePath g) name]]
        [Stmt [Id ""; Id "*"; Qual (pbPackagePath g) name]]
        (nilGuard "orig" :: rest).
Proof.
  unfold toPBFunction, toPBBinding.
  destruct (foldl_funcBody (toPBField g) (order ToPB name fm)
              {| funcBody := [nilGuard "orig"]; assignments := [] |} (toPBField_funcBody))
    as [extra ->].
  simpl. eauto.
Qed.

(** *** The fields a body mentions *)

Lemma fieldRefs_Dict_snoc a k v :
  fieldRefs (Dict (a ++ [(Stmt [Id k], v)])) = fieldRefs (Dict a) ++ k :: fieldRefs v.
Proof. simpl. rewrite flat_map_app. simpl. by rewrite app_nil_r. Qed.

Lemma fromPBField_refs b e n :
  n ∈ bindingRefs (fromPBField g b e) -> n ∈ bindingRefs b \/ n = e.1.
Proof.
  unfold fromPBField, bindingRefs.
  destruct (IsStructType e.2), (IsMap e.2), (IsSlice e.2); simpl funcBody; simpl assignments;
    rewrite ?flat_map_app, fieldRefs_Dict_snoc; simpl;
    rewrite ?elem_of_app, ?elem_of_cons, ?elem_of_app, ?elem_of_cons, ?elem_of_nil; tauto.
Qed.

Lemma toPBField_refs b e n :
  n ∈ bindingRefs (toPBField g b e) -> n ∈ bindingRefs b \/ n = e.1.
Proof.
  unfold toPBField, bindingRefs.
  destruct (IsStructType e.2), (IsMap e.2), (IsSlice e.2); simpl funcBody; simpl assignments;
    rewrite ?flat_map_app, fieldRefs_Dict_snoc; simpl;
    rewrite ?elem_of_app, ?elem_of_cons, ?elem_of_app, ?elem_of_cons, ?elem_of_nil; tauto.
Qed.

Lemma foldl_refs (step : Binding -> string * fieldState -> Binding) l b n :
  (forall b e n, n ∈ bindingRefs (step b e) -> n ∈ bindingRefs b \/ n = e.1) ->
  n ∈ bindingRefs (foldl step b l) -> n ∈ bindingRefs b \/ exists e, e ∈ l /\ n = e.1.
Proof.
  intros Hstep. revert b. induction l as [|e l IH]; intros b; simpl; [by left|].
  intros [H|(e' & He' & ->)]%IH.
  - apply Hstep in H as [H| ->]; [by left|]. right. exists e. split; [left|done].
  - right. exists e'. split; [by right|done].
Qed.

Lemma order_key d name fm e :
  e ∈ order d name fm -> fm !! e.1 = Some e.2.
Proof.
  rewrite (rangeOver_perm order d name fm). destruct e as [k v]. simpl.
  apply elem_of_map_to_list.
Qed.

(** The fields a generated function mentions are keys of its field
    manifest. *)
Lemma fromPBFunction_refs name fm n :
  n ∈ declFieldRefs (fromPBFunction order g name fm) -> is_Some (fm !! n).
Proof.
  unfold fromPBFunction, declFieldRefs. rewrite flat_map_app. simpl. rewrite !app_nil_r.
  fold (bindingRefs (fromPBBinding order g name fm)). unfold fromPBBinding.
  intros [H|(e & He & ->)]%(foldl_refs _ _ _ _ fromPBField_refs).
  - by apply elem_of_nil in H.
  - apply order_key in He. by eexists.
Qed.

Lemma toPBFunction_refs name fm n :
  n ∈ declFieldRefs (toPBFunction order g name fm) -> is_Some (fm !! n).
Proof.
  unfold toPBFunction, declFieldRefs. rewrite flat_map_app. simpl. rewrite !app_nil_r.
  fold (bindingRefs (toPBBinding order g name fm)). unfold toPBBinding.
  intros [H|(e & He & ->)]%(foldl_refs _ _ _ _ toPBField_refs).
  - by apply elem_of_nil in H.
  - apply order_key in He. by eexists.
Qed.

End BindingFacts.

Section GuardFacts.

Import jen.

Variable V : Type.
Variable evalOther : Code -> Env V -> option V.
Variable condOther : Code -> Env V -> bool.
Variable execOther : Code -> Env V -> Env V.

(** A guarded function called on [nil] returns [nil]; of its statements
    only the [return nil] of the guard is run. *)
Lemma guarded_call_nil d :
  guarded d -> isFunction d ->
  callWith V evalOther condOther execOther d None
  = Some (Returned None, [Stmt [Return [Stmt [Nil]]]]).
Proof.
  destruct d as [| name parameters results body |]; [done| |done].
  intros (p & ptype & rest & -> & ->) _. simpl.
  rewrite decide_True by done. done.
Qed.

End GuardFacts.

(** ** Units in the history of a run *)

Section UnitFacts.

Import jen emitted.

Variable JsonTag : string -> string * string.
Variable order : MapOrder.
Variable g : GenerateDTOFromProtoGo.

Local Abbreviation Step := (Step JsonTag order g anyStruct).
Local Abbreviation Steps := (rtc Step).
Local Abbreviation headsUnits := (headsUnits order g).

Lemma code_app l1 l2 : code (l1 ++ l2) = code l1 ++ code l2.
Proof. unfold code. apply omap_app. Qed.

Lemma code_unitEvents M cur :
  code (unitEvents JsonTag order g M cur)
  = [ DStruct (parser.Name cur) (dtoFieldsOf JsonTag (parser.Vars cur));
      fromPBFunction order g (parser.Name cur) (fieldManifestOf M (parser.Vars cur));
      DNewLine; DNewLine;
      toPBFunction order g (parser.Name cur) (fieldManifestOf M (parser.Vars cur));
      DNewLine ].
Proof. reflexivity. Qed.

(** A property of single events carries over a run when the events of a
    unit have it. *)
Lemma Steps_log_Forall (P : Event -> Prop) st st' :
  (forall M cur, Forall P (unitEvents JsonTag order g M cur)) ->
  (forall name, P (MarkVisited name)) ->
  Steps st st' -> Forall P (log st) -> Forall P (log st').
Proof.
  intros Hunit Hmark. induction 1 as [|st1 st2 st3 H _ IH]; [done|].
  intros H1. apply IH. destruct H; simpl; apply Forall_app; split; auto.
Qed.

Lemma Steps_invariant (I : GenState -> Prop) st st' :
  (forall s s', I s -> Step s s' -> I s') -> Steps st st' -> I st -> I st'.
Proof. intros Hstep. induction 1; eauto. Qed.

(** *** Members and field manifest of a unit *)

Lemma retained_not_native f vars :
  f ∈ retained vars -> parser.VarName f ∉ pbNativeFields.
Proof. unfold retained. by intros [? _]%list_elem_of_filter. Qed.

Lemma memberName_dtoFieldsOf vars :
  omap memberName (dtoFieldsOf JsonTag vars) = parser.VarName <$> retained vars.
Proof.
  unfold dtoFieldsOf. induction (retained vars) as [|f l IH]; [done|].
  simpl. f_equal. exact IH.
Qed.

Lemma foldl_recordField_key M l fm k :
  is_Some (foldl (recordField M) fm l !! k) ->
  is_Some (fm !! k) \/ exists f, f ∈ l /\ parser.VarName f = k.
Proof.
  revert fm. induction l as [|f l IH]; intros fm; simpl; [by left|].
  intros [H|(f' & Hf' & <-)]%IH.
  - unfold recordField in H. destruct (classify M f); [|by left].
    destruct (decide (parser.VarName f = k)) as [<-|Hne].
    + right. exists f. split; [left|done].
    + rewrite lookup_insert_ne in H by done. by left.
  - right. exists f'. split; [by right|done].
Qed.

Lemma fieldManifestOf_key M vars k :
  is_Some (fieldManifestOf M vars !! k) -> k ∉ pbNativeFields.
Proof.
  unfold fieldManifestOf. intros [H|(f & Hf & <-)]%foldl_recordField_key.
  - rewrite lookup_empty in H. by destruct H.
  - by eapply retained_not_native.
Qed.

(** *** Every struct of the output heads a unit *)

Lemma unitAt_app ds new j name :
  unitAt order g ds j name -> unitAt order g (ds ++ new) j name.
Proof.
  intros (fields & fm & H1 & H2 & H3). exists fields, fm.
  repeat split; by apply lookup_app_l_Some.
Qed.

Lemma unitBefore_app ds new i name :
  unitBefore order g ds i name -> unitBefore order g (ds ++ new) i name.
Proof. intros (j & Hj & H). exists j. split; [done|]. by apply unitAt_app. Qed.

Lemma unitBefore_mono ds i i' name :
  (i <= i')%nat -> unitBefore order g ds i name -> unitBefore order g ds i' name.
Proof. intros Hi (j & Hj & H). exists j. split; [lia|done]. Qed.

Lemma unitAt_new ds M cur :
  unitAt order g (ds ++ code (unitEvents JsonTag order g M cur)) (length ds) (parser.Name cur).
Proof.
  exists (dtoFieldsOf JsonTag (parser.Vars cur)), (fieldManifestOf M (parser.Vars cur)).
  rewrite code_unitEvents.
  repeat split; rewrite lookup_app_r by lia.
  - by replace (length ds - length ds)%nat with 0%nat by lia.
  - by replace (length ds + 1 - length ds)%nat with 1%nat by lia.
  - by replace (length ds + 4 - length ds)%nat with 4%nat by lia.
Qed.

(** The struct declarations among the declarations of a unit. *)
Lemma unit_struct_lookup M cur k name fields :
  code (unitEvents JsonTag order g M cur) !! k = Some (DStruct name fields) ->
  k = 0%nat /\ name = parser.Name cur /\ fields = dtoFieldsOf JsonTag (parser.Vars cur).
Proof.
  rewrite code_unitEvents. unfold fromPBFunction, toPBFunction.
  destruct k as [|[|[|[|[|[|k]]]]]]; simpl; try done.
  by intros [= <- <-].
Qed.

Lemma Step_headsUnits st st' : headsUnits st -> Step st st' -> headsUnits st'.
Proof.
  intros HI Hs. revert HI.
  destruct Hs as [st0 cur ss H1 H2 H3 _|st0 name0 ss H1 H2]; intros HI i name fields; simpl;
    rewrite code_app.
  - intros [Hi|[Hi Hk]]%lookup_app_Some.
    + by apply unitAt_app, (HI i name fields).
    + apply unit_struct_lookup in Hk as (Hk & -> & _).
      replace i with (length (code (log st0))) by lia. apply unitAt_new.
  - simpl. rewrite app_nil_r. apply HI.
Qed.

Lemma initialState_headsUnits structures : headsUnits (initialState structures).
Proof. intros [|[|i]] name fields; simpl; done. Qed.

Lemma generateStructs_headsUnits fuel structures st :
  generateStructs JsonTag order g fuel structures = Ok st -> headsUnits st.
Proof.
  intros H%generateStructs_Steps.
  eapply Steps_invariant; [apply Step_headsUnits|exact H|apply initialState_headsUnits].
Qed.

(** *** No unit mentions a skipped field *)

Lemma unitEvents_clean M cur : Forall cleanEvent (unitEvents JsonTag order g M cur).
Proof.
  assert (cleanEvent (Emit DNewLine)) as Hnl.
  { intros n Hn. by apply elem_of_nil in Hn. }
  unfold unitEvents. repeat apply Forall_cons_2; try apply Forall_nil_2; try done.
  - intros n. simpl. rewrite memberName_dtoFieldsOf.
    intros (f & -> & Hf)%list_elem_of_fmap. by eapply retained_not_native.
  - intros n Hn%fromPBFunction_refs. by eapply fieldManifestOf_key.
  - intros n Hn%toPBFunction_refs. by eapply fieldManifestOf_key.
Qed.

Lemma elem_of_code d l : d ∈ code l -> Emit d ∈ l.
Proof.
  unfold code. intros (e & He & Hd)%list_elem_of_omap.
  destruct e as [d'|]; [|done]. by injection Hd as ->.
Qed.

Lemma generateStructs_clean fuel structures st :
  generateStructs JsonTag order g fuel structures = Ok st -> Forall cleanEvent (log st).
Proof.
  intros H%generateStructs_Steps.
  eapply Steps_log_Forall; [apply unitEvents_clean|done|exact H|].
  simpl. apply Forall_singleton. simpl. intros n Hn. by apply elem_of_nil in Hn.
Qed.

End UnitFacts.

(** C6. In the output of every run, no declaration (DTO type or
    conversion function) mentions a field whose name is in the exclusion
    set [state], [sizeCache], [unknownFields]: not as a member of the
    type, not as a selector, a literal key or a [range] target of a
    function body. *)
Theorem generated_code_excludes_native_fields
    (JsonTag : string -> string * string) (order : MapOrder) (g : GenerateDTOFromProtoGo)
    (fuel : nat) (structures : list parser.Struct) (st : GenState) (d : Decl) (n : string) :
  generateStructs JsonTag order g fuel structures = Ok st ->
  d ∈ code (log st) ->
  n ∈ pbNativeFields ->
  n ∉ emitted.declFieldRefs d.
Proof.
  intros H Hd Hn Hin.
  pose proof (generateStructs_clean _ _ _ _ _ _ H) as Hc.
  rewrite Forall_forall in Hc. apply elem_of_code in Hd.
  by apply (Hc _ Hd n Hin).
Qed.

Lemma generated_code_excludes_native_fields_witness :
  "state" ∉ emitted.declFieldRefs
              (DStruct "StructVal" (dtoFieldsOf jsonTagModel
                                      [var "state" "protoimpl.MessageState"; var "AString" "string"])).
Proof.
  eapply (generated_code_excludes_native_fields jsonTagModel mapOrderDefault
            (testGenerator "Something") 3 sampleSchema _ _ "state").
  - vm_compute. reflexivity.
  - apply list_elem_of_lookup. exists 1%nat. reflexivity.
  - unfold pbNativeFields. rewrite !elem_of_union, !elem_of_singleton. auto.
Defined.

(** C7. In the output of every run, each struct is followed by its two
    conversion functions, and both start with the guard on their single
    parameter: called with [nil] they return [nil], and the [return nil]
    of the guard is the only statement run, whatever the rest of the body
    does. *)
Theorem conversion_functions_return_nil_on_nil
    (JsonTag : string -> string * string) (order : MapOrder) (g : GenerateDTOFromProtoGo)
    (fuel : nat) (structures : list parser.Struct) (st : GenState)
    (i : nat) (name : string) (fields : list jen.Code)
    (V : Type) (evalOther : jen.Code -> Env V -> option V)
    (condOther : jen.Code -> Env V -> bool) (execOther : jen.Code -> Env V -> Env V) :
  generateStructs JsonTag order g fuel structures = Ok st ->
  code (log st) !! i = Some (DStruct name fields) ->
  exists fromPB toPB restFrom restTo,
    code (log st) !! (i + 1)%nat = Some fromPB
    /\ code (log st) !! (i + 4)%nat = Some toPB
    /\ fromPB = DFunction (name ++ "FromPB")
                  [jen.Stmt [jen.Id "pb"; jen.Id "*"; jen.Qual (pbPackagePath g) name]]
                  [jen.Stmt [jen.Id ""; jen.Id "*"; jen.Qual (dtoPackagePath g) name]]
                  (nilGuard "pb" :: restFrom)
    /\ toPB = DFunction (name ++ "ToPB")
                [jen.Stmt [jen.Id "orig"; jen.Id "*"; jen.Qual (dtoPackagePath g) name]]
                [jen.Stmt [jen.Id ""; jen.Id "*"; jen.Qual (pbPackagePath g) name]]
                (nilGuard "orig" :: restTo)
    /\ callWith V evalOther condOther execOther fromPB None
       = Some (Returned None, [jen.Stmt [jen.Return [jen.Stmt [jen.Nil]]]])
    /\ callWith V evalOther condOther execOther toPB None
       = Some (Returned None, [jen.Stmt [jen.Return [jen.Stmt [jen.Nil]]]]).
Proof.
  intros H Hi.
  destruct (generateStructs_headsUnits _ _ _ _ _ _ H i name fields Hi)
    as (fields' & fm & _ & H1 & H4).
  destruct (fromPBFunction_guard order g name fm) as [restFrom HF].
  destruct (toPBFunction_guard order g name fm) as [restTo HT].
  exists (fromPBFunction order g name fm), (toPBFunction order g name fm), restFrom, restTo.
  do 4 (split; [done|]).
  split; apply guarded_call_nil; rewrite ?HF, ?HT; simpl; eauto.
Qed.

Lemma conversion_functions_return_nil_on_nil_witness :
  exists fromPB toPB restFrom restTo,
    ([DNewLine;
      DStruct "PingRequest" [];
      fromPBFunction mapOrderDefault (testGenerator "") "PingRequest" ∅;
      DNewLine; DNewLine;
      toPBFunction mapOrderDefault (testGenerator "") "PingRequest" ∅;
      DNewLine] : list Decl) !! 2%nat = Some fromPB
    /\ ([DNewLine;
         DStruct "PingRequest" [];
         fromPBFunction mapOrderDefault (testGenerator "") "PingRequest" ∅;
         DNewLine; DNewLine;
         toPBFunction mapOrderDefault (testGenerator "") "PingRequest" ∅;
         DNewLine] : list Decl) !! 5%nat = Some toPB
    /\ fromPB = DFunction "PingRequestFromPB"
                  [jen.Stmt [jen.Id "pb"; jen.Id "*"; jen.Qual "test/pkg/grpc/pb" "PingRequest"]]
                  [jen.Stmt [jen.Id ""; jen.Id "*"; jen.Qual "test/pkg/test/dto" "PingRequest"]]
                  (nilGuard "pb" :: restFrom)
    /\ toPB = DFunction "PingRequestToPB"
                [jen.Stmt [jen.Id "orig"; jen.Id "*"; jen.Qual "test/pkg/test/dto" "PingRequest"]]
                [jen.Stmt [jen.Id ""; jen.Id "*"; jen.Qual "test/pkg/grpc/pb" "PingRequest"]]
                (nilGuard "orig" :: restTo)
    /\ callWith unit (fun _ _ => None) (fun _ _ => false) (fun _ ρ => ρ) fromPB None
       = Some (Returned None, [jen.Stmt [jen.Return [jen.Stmt [jen.Nil]]]])
    /\ callWith unit (fun _ _ => None) (fun _ _ => false) (fun _ ρ => ρ) toPB None
       = Some (Returned None, [jen.Stmt [jen.Return [jen.Stmt [jen.Nil]]]]).
Proof.
  apply (conversion_functions_return_nil_on_nil jsonTagModel mapOrderDefault (testGenerator "")
           2 [emptyStruct "PingRequest"]
           {| manifest := <["PingRequest" := {| Struct := emptyStruct "PingRequest"; Visited := true |}]> ∅;
              log := [Emit DNewLine;
                      Emit (DStruct "PingRequest" []);
                      MarkVisited "PingRequest";
                      Emit (fromPBFunction mapOrderDefault (testGenerator "") "PingRequest" ∅);
                      Emit DNewLine; Emit DNewLine;
                      Emit (toPBFunction mapOrderDefault (testGenerator "") "PingRequest" ∅);
                      Emit DNewLine] |}
           1 "PingRequest" [] unit (fun _ _ => None) (fun _ _ => false) (fun _ ρ => ρ)).
  - vm_compute. reflexivity.
  - reflexivity.
Defined.

(** The fields the conversion function of [Something] mentions. *)
Example sample_function_field_refs :
  emitted.declFieldRefs
    (fromPBFunction mapOrderDefault (testGenerator "Something") "Something"
       (fieldManifestOf (buildManifest sampleSchema)
          [ var "state" "protoimpl.MessageState"; var "Name" "string";
            var "StructMap" "map[string]*StructVal"; var "StructSlice" "[]*StructVal" ]))
  = ["StructSlice"; "StructSlice"; "StructMap"; "StructMap";
     "StructSlice"; "StructMap"; "Name"; "Name"].
Proof. vm_compute. reflexivity. Qed.

(** ** When the flag is raised *)

Section SuffixFacts.

Implicit Types (x y a b : string).

Lemma string_app_inj_tail x y a b :
  String.length a = String.length b -> (x ++ a)%string = (y ++ b)%string -> x = y /\ a = b.
Proof.
  intros Hlen. revert y. induction x as [|c x IH]; intros y H.
  - destruct y as [|d y]; [done|]. simpl in H.
    apply (f_equal String.length) in H. simpl in H.
    rewrite string_app_length in H. lia.
  - destruct y as [|d y]; simpl in H.
    + apply (f_equal String.length) in H. simpl in H.
      rewrite string_app_length in H. lia.
    + injection H as -> H. by destruct (IH _ H) as [-> ->].
Qed.

Lemma FromPB_name_inj x y : (x ++ "FromPB")%string = (y ++ "FromPB")%string -> x = y.
Proof. intros H. by apply string_app_inj_tail in H as [? _]. Qed.

Lemma ToPB_name_inj x y : (x ++ "ToPB")%string = (y ++ "ToPB")%string -> x = y.
Proof. intros H. by apply string_app_inj_tail in H as [? _]. Qed.

Lemma FromPB_ToPB_names x y : (x ++ "FromPB")%string <> (y ++ "ToPB")%string.
Proof.
  change "FromPB" with ("Fr" ++ "omPB")%string. rewrite <- string_app_assoc.
  intros H. by apply string_app_inj_tail in H as [_ ?].
Qed.

End SuffixFacts.

Section VisitedFacts.

Variable JsonTag : string -> string * string.
Variable order : MapOrder.
Variable g : GenerateDTOFromProtoGo.

Local Abbreviation Step := (Step JsonTag order g anyStruct).
Local Abbreviation Steps := (rtc Step).
Local Abbreviation Coherent := (Coherent order g).

Lemma transition_app_l l new i x :
  (i < length l)%nat -> transition (l ++ new) i x -> transition l i x.
Proof.
  intros Hi [H1 H2]. split.
  - by rewrite lookup_app_l in H1.
  - intros j Hj. specialize (H2 j Hj). by rewrite lookup_app_l in H2 by lia.
Qed.

Lemma unit_lookup M cur k e :
  unitEvents JsonTag order g M cur !! k = Some e ->
  (k = 0 /\ e = Emit (DStruct (parser.Name cur) (dtoFieldsOf JsonTag (parser.Vars cur))))
  \/ (k = 1 /\ e = MarkVisited (parser.Name cur))
  \/ (k = 2 /\ e = Emit (fromPBFunction order g (parser.Name cur)
                           (fieldManifestOf M (parser.Vars cur))))
  \/ (k = 5 /\ e = Emit (toPBFunction order g (parser.Name cur)
                           (fieldManifestOf M (parser.Vars cur))))
  \/ e = Emit DNewLine.
Proof.
  unfold unitEvents.
  destruct k as [|[|[|[|[|[|[|k]]]]]]]; simpl; intros [= <-] || intros [=]; auto 10.
Qed.

Lemma Step_Coherent st st' : Coherent st -> Step st st' -> Coherent st'.
Proof.
  intros HI Hs. revert HI.
  destruct Hs as [st cur ss E HC HV _|st name ss E V]; intros [F R Fn S].
  - (* a unit *)
    split; simpl.
    + intros x. rewrite elem_of_app, <- F. unfold visited. simpl. split.
      * intros (ss' & H & V). destruct (decide (parser.Name cur = x)) as [<-|Hne].
        -- right. unfold unitEvents. apply list_elem_of_further, list_elem_of_here.
        -- rewrite lookup_insert_ne in H by done. left. by exists ss'.
      * intros [(ss' & H & V)|H].
        -- destruct (decide (parser.Name cur = x)) as [<-|Hne].
           ++ exists (marked ss). by rewrite lookup_insert_eq.
           ++ exists ss'. by rewrite lookup_insert_ne.
        -- apply list_elem_of_lookup in H as [k H].
           apply unit_lookup in H as [[_ ?]|[[_ [= ->]]|[[_ ?]|[[_ ?]|?]]]]; try done.
           exists (marked ss). by rewrite lookup_insert_eq.
    + intros i x Ht. destruct (decide (i < length (log st))%nat) as [Hi|Hi].
      * apply transition_app_l in Ht; [|done].
        destruct (R i x Ht) as (p & fields & fm & -> & H1 & H2 & H3).
        exists p, fields, fm. repeat split; by apply lookup_app_l_Some.
      * destruct Ht as [H1 _]. rewrite lookup_app_r in H1 by lia.
        apply unit_lookup in H1 as [[_ ?]|[[Hk [= ->]]|[[_ ?]|[[_ ?]|?]]]]; try done.
        exists (length (log st)), (dtoFieldsOf JsonTag (parser.Vars cur)),
               (fieldManifestOf (manifest st) (parser.Vars cur)).
        split; [lia|]. repeat split; rewrite lookup_app_r by lia.
        -- by replace (length (log st) - length (log st))%nat with 0%nat by lia.
        -- by replace (length (log st) + 2 - length (log st))%nat with 2%nat by lia.
        -- by replace (length (log st) + 5 - length (log st))%nat with 5%nat by lia.
    + intros j name ps rs body [H|[Hj H]]%lookup_app_Some.
      * destruct (Fn _ _ _ _ _ H) as (y & j' & Hj' & H' & Hn).
        exists y, j'. split; [done|]. split; [by apply lookup_app_l_Some|done].
      * exists (parser.Name cur), (length (log st) + 1)%nat.
        assert (unitEvents JsonTag order g (manifest st) cur !! 1%nat
                = Some (MarkVisited (parser.Name cur))) as Hm by done.
        apply unit_lookup in H as [[_ ?]|[[_ ?]|[[Hk Hf]|[[Hk Hf]|?]]]]; try done.
        -- split; [lia|]. split.
           ++ rewrite lookup_app_r by lia.
              by replace (length (log st) + 1 - length (log st))%nat with 1%nat by lia.
           ++ left. unfold fromPBFunction in Hf. by injection Hf as ->.
        -- split; [lia|]. split.
           ++ rewrite lookup_app_r by lia.
              by replace (length (log st) + 1 - length (log st))%nat with 1%nat by lia.
           ++ right. unfold toPBFunction in Hf. by injection Hf as ->.
    + intros p x fields [H|[Hp H]]%lookup_app_Some.
      * by apply lookup_app_l_Some, (S p x fields).
      * apply unit_lookup in H as [[Hk [= -> ->]]|[[_ ?]|[[_ Hf]|[[_ Hf]|?]]]]; try done.
        rewrite lookup_app_r by lia.
        by replace (p + 1 - length (log st))%nat with 1%nat by lia.
  - (* the flag of a visited struct written again *)
    assert (<[name := marked ss]> (manifest st) = manifest st) as Hm.
    { rewrite marked_visited by done. by apply insert_id. }
    assert (MarkVisited name ∈ log st) as Hin.
    { apply F. by exists ss. }
    split; simpl.
    + intros x. unfold visited. simpl. rewrite Hm, elem_of_app.
      change (visited st x <-> MarkVisited x ∈ log st \/ MarkVisited x ∈ [MarkVisited name]).
      rewrite <- F. split; [by left|]. intros [?|[= ->]%list_elem_of_singleton]; [done|].
      by exists ss.
    + intros i x Ht. destruct (decide (i < length (log st))%nat) as [Hi|Hi].
      * apply transition_app_l in Ht; [|done].
        destruct (R i x Ht) as (p & fields & fm & -> & H1 & H2 & H3).
        exists p, fields, fm. repeat split; by apply lookup_app_l_Some.
      * exfalso. destruct Ht as [H1 H2]. rewrite lookup_app_r in H1 by lia.
        destruct (i - length (log st))%nat eqn:Hk; [|by destruct n].
        injection H1 as <-.
        apply list_elem_of_lookup in Hin as [j Hj].
        apply (H2 j); [apply lookup_lt_Some in Hj; lia|].
        by apply lookup_app_l_Some.
    + intros j name' ps rs body [H|[Hj H]]%lookup_app_Some.
      * destruct (Fn _ _ _ _ _ H) as (y & j' & Hj' & H' & Hn).
        exists y, j'. split; [done|]. split; [by apply lookup_app_l_Some|done].
      * destruct (j - length (log st))%nat; [done|by destruct n].
    + intros p x fields [H|[Hp H]]%lookup_app_Some.
      * by apply lookup_app_l_Some, (S p x fields).
      * destruct (p - length (log st))%nat; [done|by destruct n].
Qed.

Lemma initialState_Coherent structures : Coherent (initialState structures).
Proof.
  split; simpl.
  - intros x. split.
    + intros (ss & H & V). apply buildManifest_Some in H as (_ & _ & ?). congruence.
    + intros [=]%list_elem_of_singleton.
  - intros [|[|i]] x [H _]; done.
  - intros [|[|j]] name ps rs body H; done.
  - intros [|[|p]] x fields H; done.
Qed.

Lemma generateStructs_Coherent fuel structures st :
  generateStructs JsonTag order g fuel structures = Ok st -> Coherent st.
Proof.
  intros H%generateStructs_Steps.
  eapply Steps_invariant; [apply Step_Coherent|exact H|apply initialState_Coherent].
Qed.

(** A history that holds a write for a name holds a first one. *)
Lemma first_mark l x : MarkVisited x ∈ l -> exists i, transition l i x.
Proof.
  induction l as [|e l IH]; [by intros ?%elem_of_nil|].
  destruct e as [d|y].
  - intros [[=]|H]%elem_of_cons. destruct (IH H) as [i [H1 H2]].
    exists (S i). split; [done|]. intros [|j] Hj; [done|]. apply H2. lia.
  - destruct (decide (y = x)) as [->|Hne].
    + intros _. exists 0%nat. split; [done|]. intros j Hj. lia.
    + intros [[=]|H]%elem_of_cons; [done|]. destruct (IH H) as [i [H1 H2]].
      exists (S i). split; [done|]. intros [|j] Hj; simpl; [congruence|]. apply H2. lia.
Qed.

Lemma transition_unique l i i' x : transition l i x -> transition l i' x -> i = i'.
Proof.
  intros [H1 H2] [H1' H2'].
  destruct (lt_eq_lt_dec i i') as [[Hlt|Heq]|Hgt]; [|done|].
  - by destruct (H2' i Hlt).
  - by destruct (H2 i' Hgt).
Qed.

Lemma Coherent_no_function_before st i x :
  Coherent st -> transition (log st) i x ->
  ~ functionBefore (log st) i (x ++ "FromPB") /\ ~ functionBefore (log st) i (x ++ "ToPB").
Proof.
  intros [_ _ Fn _] [_ Hfirst].
  split; intros (j & ps & rs & body & Hj & H);
    destruct (Fn _ _ _ _ _ H) as (y & j' & Hj' & Hm & [Hn|Hn]).
  - apply FromPB_name_inj in Hn as <-. apply (Hfirst j'); [lia|done].
  - by apply FromPB_ToPB_names in Hn.
  - symmetry in Hn. by apply FromPB_ToPB_names in Hn.
  - apply ToPB_name_inj in Hn as <-. apply (Hfirst j'); [lia|done].
Qed.

End VisitedFacts.

(** C2, as stated: the write that raises the flag of a struct comes after
    both conversion functions of the struct are emitted. In the run on the
    schema [PingRequest], the write at position 2 raises the flag of
    [PingRequest], and no function at all is emitted before it. *)
Lemma Visited_raised_before_functions :
  exists st,
    generateStructs jsonTagModel mapOrderDefault (testGenerator "") 2 [emptyStruct "PingRequest"]
    = Ok st
    /\ transition (log st) 2 "PingRequest"
    /\ ~ functionBefore (log st) 2 "PingRequestFromPB"
    /\ ~ functionBefore (log st) 2 "PingRequestToPB".
Proof.
  eexists. split; [vm_compute; reflexivity|]. simpl. split; [|split].
  - split; [reflexivity|]. intros [|[|j]] Hj; simpl; [done|done|lia].
  - intros (j & ps & rs & body & Hj & H). destruct j as [|[|j]]; simpl in H; [done|done|lia].
  - intros (j & ps & rs & body & Hj & H). destruct j as [|[|j]]; simpl in H; [done|done|lia].
Qed.

(** C2, amended: in every run, the flag of each struct whose type is
    emitted is raised exactly once; the raising write comes directly after
    the DTO type of the struct and directly before its two conversion
    functions, none of which is emitted earlier; and a flag is set exactly
    when the history holds a write for it. *)
Theorem Visited_raised_between_type_and_functions
    (JsonTag : string -> string * string) (order : MapOrder) (g : GenerateDTOFromProtoGo)
    (fuel : nat) (structures : list parser.Struct) (st : GenState) :
  generateStructs JsonTag order g fuel structures = Ok st ->
  (forall p x fields,
      log st !! p = Some (Emit (DStruct x fields)) ->
      exists i, transition (log st) i x /\ forall i', transition (log st) i' x -> i' = i)
  /\ (forall i x,
        transition (log st) i x ->
        (exists p fields fm,
            i = (p + 1)%nat
            /\ log st !! p = Some (Emit (DStruct x fields))
            /\ log st !! (i + 1)%nat = Some (Emit (fromPBFunction order g x fm))
            /\ log st !! (i + 4)%nat = Some (Emit (toPBFunction order g x fm)))
        /\ ~ functionBefore (log st) i (x ++ "FromPB")
        /\ ~ functionBefore (log st) i (x ++ "ToPB"))
  /\ (forall x, visited st x <-> MarkVisited x ∈ log st).
Proof.
  intros H. pose proof (generateStructs_Coherent _ _ _ _ _ _ H) as HC.
  split; [|split].
  - intros p x fields Hp.
    destruct (first_mark (log st) x) as [i Hi].
    { apply list_elem_of_lookup. exists (p + 1)%nat. by eapply (coh_struct _ _ _ HC). }
    exists i. split; [done|]. intros i' Hi'. by eapply transition_unique.
  - intros i x Ht. split; [|exact (Coherent_no_function_before order g st i x HC Ht)].
    destruct (coh_raise _ _ _ HC i x Ht) as (p & fields & fm & -> & H1 & H2 & H3).
    exists p, fields, fm. split; [done|]. split; [done|].
    replace (p + 1 + 1)%nat with (p + 2)%nat by lia.
    by replace (p + 1 + 4)%nat with (p + 5)%nat by lia.
  - apply (coh_flag _ _ _ HC).
Qed.

Lemma Visited_raised_between_type_and_functions_witness :
  exists st,
    generateStructs jsonTagModel mapOrderDefault (testGenerator "") 2 [emptyStruct "PingRequest"]
    = Ok st
    /\ (forall p x fields,
          log st !! p = Some (Emit (DStruct x fields)) ->
          exists i, transition (log st) i x /\ forall i', transition (log st) i' x -> i' = i)
    /\ (forall i x,
          transition (log st) i x ->
          (exists p fields fm,
              i = (p + 1)%nat
              /\ log st !! p = Some (Emit (DStruct x fields))
              /\ log st !! (i + 1)%nat
                 = Some (Emit (fromPBFunction mapOrderDefault (testGenerator "") x fm))
              /\ log st !! (i + 4)%nat
                 = Some (Emit (toPBFunction mapOrderDefault (testGenerator "") x fm)))
          /\ ~ functionBefore (log st) i (x ++ "FromPB")
          /\ ~ functionBefore (log st) i (x ++ "ToPB"))
    /\ (forall x, visited st x <-> MarkVisited x ∈ log st).
Proof.
  eexists. split; [vm_compute; reflexivity|].
  apply (Visited_raised_between_type_and_functions jsonTagModel mapOrderDefault
           (testGenerator "") 2 [emptyStruct "PingRequest"]).
  vm_compute. reflexivity.
Defined.

(** ** Order of the output *)

Section OrderFacts.

Import emitted.

Variable JsonTag : string -> string * string.
Variable order : MapOrder.
Variable g : GenerateDTOFromProtoGo.

Local Abbreviation Step := (Step JsonTag order g anyStruct).
Local Abbreviation Steps := (rtc Step).
Local Abbreviation Ordered := (Ordered order g).

Lemma member_of_dtoFieldsOf vars m t :
  m ∈ dtoFieldsOf JsonTag vars -> memberType m = Some t ->
  exists f, f ∈ retained vars /\ parser.VarType f = t.
Proof.
  unfold dtoFieldsOf. intros (f & -> & Hf)%list_elem_of_fmap. simpl.
  intros [= <-]. by exists f.
Qed.

Lemma Step_Ordered st st' : Ordered st -> Step st st' -> Ordered st'.
Proof.
  intros HI Hs. revert HI.
  destruct Hs as [st cur ss E HC HV _|st name ss E V]; intros [TV TM].
  - pose proof (Evolves_mark st (parser.Name cur) ss
                  (unitEvents JsonTag order g (manifest st) cur) E) as Ev.
    split; simpl; rewrite code_app.
    + intros x (ss' & H & V). simpl in H.
      destruct (decide (parser.Name cur = x)) as [<-|Hne].
      * exists (length (code (log st))). split; [|apply unitAt_new].
        rewrite length_app, code_unitEvents. simpl. lia.
      * rewrite lookup_insert_ne in H by done.
        apply unitBefore_app. eapply unitBefore_mono; [|apply TV; by exists ss'].
        rewrite length_app. lia.
    + intros i name fields m t R isSlice isMap mapKeyType [Hi|[Hi Hk]]%lookup_app_Some
        Hm Ht Hp Hr; apply unitBefore_app.
      * eapply TM; eauto. by apply (Evolves_registered _ _ R Ev).
      * apply unit_struct_lookup in Hk as (Hk & -> & ->).
        apply member_of_dtoFieldsOf with (t := t) in Hm as (f & Hf & <-); [|done].
        eapply unitBefore_mono; [|apply TV, (HV f R Hf)].
        -- lia.
        -- exists isSlice, isMap, mapKeyType. split; [done|].
           by apply (Evolves_registered _ _ R Ev).
  - assert (<[name := marked ss]> (manifest st) = manifest st) as Hm.
    { rewrite marked_visited by done. by apply insert_id. }
    split; simpl; rewrite code_app; simpl; rewrite app_nil_r.
    + intros x. unfold visited. simpl. rewrite Hm. apply TV.
    + intros i name' fields m t R isSlice isMap mapKeyType Hi Hm' Ht Hp Hr.
      eapply TM; eauto. unfold registered in *. simpl in Hr. by rewrite Hm in Hr.
Qed.

Lemma initialState_Ordered structures : Ordered (initialState structures).
Proof.
  split; simpl.
  - intros x (ss & H & V). apply buildManifest_Some in H as (_ & _ & ?). congruence.
  - intros [|[|i]]; simpl; done.
Qed.

Lemma generateStructs_Ordered fuel structures st :
  generateStructs JsonTag order g fuel structures = Ok st -> Ordered st.
Proof.
  intros H%generateStructs_Steps.
  eapply Steps_invariant; [apply Step_Ordered|exact H|apply initialState_Ordered].
Qed.

(** *** Termination on acyclic schemas *)

Lemma reach_entry structures st name ss :
  Evolves (initialState structures) st ->
  manifest st !! name = Some ss ->
  Struct ss ∈ structures /\ parser.Name (Struct ss) = name
  /\ is_Some (buildManifest structures !! name).
Proof.
  intros [E A _] H. simpl in E, A.
  destruct (buildManifest structures !! name) as [ss0|] eqn:H0.
  - destruct (E _ _ H0) as (ss' & H' & HS & _).
    assert (ss' = ss) as -> by congruence. rewrite HS.
    apply buildManifest_Some in H0 as (? & ? & _). eauto.
  - rewrite (A _ H0) in H. done.
Qed.

Lemma reach_registered structures st S :
  Evolves (initialState structures) st -> S ∈ structures ->
  is_Some (manifest st !! parser.Name S).
Proof.
  intros Ev HS. apply (Evolves_registered _ _ _ Ev). simpl.
  by apply buildManifest_registered.
Qed.






End OrderFacts.

Section AcyclicFacts.




End AcyclicFacts.



Example envelope_output_order :
  exists st,
    generateStructs jsonTagModel mapOrderDefault (testGenerator "Envelope") 3 envelopeSchema = Ok st
    /\ omap (fun d => match d with DStruct name _ => Some name | _ => None end) (code (log st))
       = ["Item"; "Envelope"].
Proof. eexists. split; [vm_compute; reflexivity|reflexivity]. Qed.

(** ** Two repeated struct fields in one struct *)

Section SliceFacts.

Import jen emitted.

Variable order : MapOrder.
Variable g : GenerateDTOFromProtoGo.

Lemma listFields_order d name :
  order d name listFields = [("Users", sliceOfStruct "User"); ("Groups", sliceOfStruct "Group")]
  \/ order d name listFields = [("Groups", sliceOfStruct "Group"); ("Users", sliceOfStruct "User")].
Proof.
  pose proof (rangeOver_perm order d name listFields) as Hperm.
  assert (map_to_list listFields
          ≡ₚ [("Groups", sliceOfStruct "Group"); ("Users", sliceOfStruct "User")]) as Hl.
  { unfold listFields.
    rewrite map_to_list_insert by done.
    rewrite map_to_list_insert by done.
    by rewrite map_to_list_empty. }
  rewrite Hl in Hperm. symmetry in Hperm.
  apply Permutation_length_2_inv in Hperm as [->| ->]; auto.
Qed.

Lemma fromPBFunction_listFields :
  shortVarDecls (bodyOf (fromPBFunction order g "ListResponse" listFields)) = ["aSlice"; "aSlice"]
  /\ (Stmt [Id "Users"], Stmt [Id "aSlice"])
       ∈ returnedEntries (bodyOf (fromPBFunction order g "ListResponse" listFields))
  /\ (Stmt [Id "Groups"], Stmt [Id "aSlice"])
       ∈ returnedEntries (bodyOf (fromPBFunction order g "ListResponse" listFields)).
Proof.
  unfold fromPBFunction, fromPBBinding.
  destruct (listFields_order FromPB "ListResponse") as [-> | ->]; simpl;
    (split; [reflexivity|split]); unfold returnedEntries; simpl;
    rewrite ?elem_of_cons; auto.
Qed.

Lemma toPBFunction_listFields :
  shortVarDecls (bodyOf (toPBFunction order g "ListResponse" listFields)) = ["aSlice"; "aSlice"]
  /\ (Stmt [Id "Users"], Stmt [Id "aSlice"])
       ∈ returnedEntries (bodyOf (toPBFunction order g "ListResponse" listFields))
  /\ (Stmt [Id "Groups"], Stmt [Id "aSlice"])
       ∈ returnedEntries (bodyOf (toPBFunction order g "ListResponse" listFields)).
Proof.
  unfold toPBFunction, toPBBinding.
  destruct (listFields_order ToPB "ListResponse") as [-> | ->]; simpl;
    (split; [reflexivity|split]); unfold returnedEntries; simpl;
    rewrite ?elem_of_cons; auto.
Qed.

End SliceFacts.

Example listSchema_fields :
  fieldManifestOf (buildManifest listSchema) [var "Users" "[]*User"; var "Groups" "[]*Group"]
  = listFields.
Proof. vm_compute. reflexivity. Qed.

Example listSchema_units :
  exists st,
    generateStructs jsonTagModel mapOrderDefault (testGenerator "") 3 listSchema = Ok st
    /\ code (log st) !! 14%nat
       = Some (fromPBFunction mapOrderDefault (testGenerator "") "ListResponse" listFields)
    /\ code (log st) !! 17%nat
       = Some (toPBFunction mapOrderDefault (testGenerator "") "ListResponse" listFields).
Proof. eexists. split; [vm_compute; reflexivity|]. split; vm_compute; reflexivity. Qed.

(** C8, on a struct with two sequence-of-struct fields ([Users] and
    [Groups] of [ListResponse]): whatever the order in which the field
    manifest is ranged over, each conversion function declares the one
    variable [aSlice] twice with [:=] at the top of its body, and the
    returned literal assigns that same variable to both fields. *)
Theorem two_sequence_fields_share_one_variable (order : MapOrder) (g : GenerateDTOFromProtoGo) :
  let fromPB := bodyOf (fromPBFunction order g "ListResponse" listFields) in
  let toPB := bodyOf (toPBFunction order g "ListResponse" listFields) in
  emitted.shortVarDecls fromPB = ["aSlice"; "aSlice"]
  /\ emitted.shortVarDecls toPB = ["aSlice"; "aSlice"]
  /\ (forall body field,
        body ∈ [fromPB; toPB] -> field ∈ ["Users"; "Groups"] ->
        (jen.Stmt [jen.Id field], jen.Stmt [jen.Id "aSlice"]) ∈ emitted.returnedEntries body).
Proof.
  destruct (fromPBFunction_listFields order g) as (F1 & F2 & F3).
  destruct (toPBFunction_listFields order g) as (T1 & T2 & T3).
  split; [done|]. split; [done|].
  intros body field Hb Hf.
  apply elem_of_cons in Hb as [->|Hb]; [|apply list_elem_of_singleton in Hb as ->];
    (apply elem_of_cons in Hf as [->|Hf]; [|apply list_elem_of_singleton in Hf as ->]); done.
Qed.

(** ** Visiting a struct twice *)

Section IdempotenceFacts.

Variable JsonTag : string -> string * string.
Variable order : MapOrder.
Variable g : GenerateDTOFromProtoGo.

(** Steps of a walk that takes every struct from the registry. *)
Local Abbreviation Step := (Step JsonTag order g eq).
Local Abbreviation Steps := (rtc Step).
Local Abbreviation gen := (genDTORecursive JsonTag order g).
Local Abbreviation VisitShape := (VisitShape JsonTag order g).
Local Abbreviation VisitSpec := (VisitSpec JsonTag order g).

Lemma gen_WalkSpec fuel : WalkSpec JsonTag order g eq (gen fuel).
Proof. intros c s s'. by apply genDTORecursive_Steps. Qed.

Lemma visited_dec st x : visited st x \/ ~ visited st x.
Proof.
  unfold visited. destruct (manifest st !! x) as [ss|] eqn:E.
  - destruct (Visited ss) eqn:V; [left; by exists ss|].
    right. intros (ss' & [= <-] & ?). congruence.
  - right. by intros (ss' & [=] & _).
Qed.

(** *** Counting *)

Lemma typesNamed_app x ds1 ds2 :
  typesNamed x (ds1 ++ ds2) = typesNamed x ds1 + typesNamed x ds2.
Proof. unfold typesNamed. by rewrite filter_app, length_app. Qed.

Lemma typesNamed_unit x M cur :
  typesNamed x (code (unitEvents JsonTag order g M cur))
  = if decide (parser.Name cur = x) then 1 else 0.
Proof.
  rewrite code_unitEvents. unfold typesNamed, fromPBFunction, toPBFunction.
  rewrite filter_cons. simpl isTypeNamed.
  destruct (decide (parser.Name cur = x)) as [Hx|Hx].
  - rewrite bool_decide_eq_true_2 by done. rewrite decide_True by done. done.
  - rewrite bool_decide_eq_false_2 by done. rewrite decide_False by done. done.
Qed.


(** *** The step that raises a flag *)

Lemma first_marking s s' x :
  Steps s s' -> ~ visited s x -> visited s' x ->
  exists sU sU', Steps s sU /\ Step sU sU' /\ Evolves sU' s'
                 /\ ~ visited sU x /\ visited sU' x.
Proof.
  induction 1 as [|s s1 s' H1 H2 IH]; [done|]. intros Hn Hv.
  destruct (visited_dec s1 x) as [V1|V1].
  - exists s, s1. split; [done|]. split; [done|]. split; [|done].
    by eapply Steps_Evolves.
  - destruct (IH V1 Hv) as (sU & sU' & S1 & S2 & Ev & HU & HU').
    exists sU, sU'. split; [by eapply rtc_l|done].
Qed.

(** The step that raises the flag of [x] is the unit of the struct
    registered as [x], taken when all it refers to is visited. *)
Lemma marking_step sU sU' x :
  Step sU sU' -> ~ visited sU x -> visited sU' x ->
  exists ss, manifest sU !! x = Some ss
    /\ forall f y, f ∈ retained (parser.Vars (Struct ss)) ->
                   refersTo (manifest sU) f y -> visited sU y.
Proof.
  intros [s cur ss E HC HV HQ|s name ss E V] Hn (ss' & E' & V'); simpl in E'.
  - destruct (decide (parser.Name cur = x)) as [<-|Hne].
    + exists ss. split; [done|]. rewrite <- HQ. apply HV.
    + rewrite lookup_insert_ne in E' by done. exfalso. apply Hn. by exists ss'.
  - exfalso. apply Hn. destruct (decide (name = x)) as [<-|Hne].
    + by exists ss.
    + rewrite lookup_insert_ne in E' by done. by exists ss'.
Qed.

(** *** A visit does not visit its own struct on the way *)

Lemma classify_parse M f fs :
  classify M f = Some fs ->
  exists isSlice isMap mapKeyType,
    parseFieldType (parser.VarType f) = Some (TypeName fs, isSlice, isMap, mapKeyType).
Proof.
  unfold classify. destruct (parseFieldType (parser.VarType f)) as [[[[ft sl] mp] k]|]; [|done].
  simpl. intros [= <-]. simpl. eauto.
Qed.

Lemma unvisited_entry st x ss :
  manifest st !! x = Some ss -> Visited ss = false -> ~ visited st x.
Proof. intros E V (ss' & E' & V'). congruence. Qed.

Lemma fieldStep_keeps_unvisited recurse c w f w' ssc :
  WalkSpec JsonTag order g eq recurse -> VisitSpec recurse ->
  f ∈ retained (parser.Vars c) ->
  wellKeyed (wState w) ->
  manifest (wState w) !! parser.Name c = Some ssc -> Struct ssc = c -> Visited ssc = false ->
  fieldStep JsonTag recurse w f = Ok w' ->
  ~ visited (wState w') (parser.Name c).
Proof.
  intros Hwalk Hvisit Hret W Ec Sc Vc H.
  pose proof (retained_not_native _ _ Hret) as Hn.
  destruct (fieldStep_Ok _ _ _ _ _ Hn H) as (fs & Hc & _ & _ & Hm).
  destruct (classify_parse _ _ _ Hc) as (isSlice & isMap & key & Hp).
  destruct (manifest (wState w) !! TypeName fs) as [ss'|] eqn:E;
    [|rewrite Hm; by eapply unvisited_entry].
  destruct (Visited ss') eqn:V'; [rewrite Hm; by eapply unvisited_entry|].
  destruct Hm as (st1 & H1 & H2).
  pose proof (W _ _ E) as HN.
  destruct (Hvisit (Struct ss') (wState w) st1 ss' W) as (sL & ssL & SL & EL & VL & HVL & ->);
    [by rewrite HN|done|done|done|].
  rewrite HN in EL.
  apply setVisited_Ok in H2 as (ss2 & E2 & ->). simpl in E2.
  pose proof (Steps_Evolves _ _ _ _ _ _ SL) as EvL.
  assert (forall s, Evolves (wState w) s -> refersTo (manifest s) f (TypeName fs)) as Href.
  { intros s Ev. exists isSlice, isMap, key. split; [done|].
    apply (Evolves_registered _ _ _ Ev). by exists ss'. }
  intros Hvis. destruct (decide (TypeName fs = parser.Name c)) as [Heq|Hne].
  - (* the field refers to the struct itself *)
    assert (ss' = ssc) as -> by congruence.
    apply (unvisited_entry sL (TypeName fs) ssL EL VL).
    apply (HVL f); [by rewrite Sc|by apply Href].
  - (* the struct was visited further down *)
    assert (visited sL (parser.Name c)) as HvL.
    { destruct Hvis as (sv & Ev & Vv). simpl in Ev.
      rewrite lookup_insert_ne in Ev by done.
      rewrite HN, lookup_insert_ne in Ev by done. by exists sv. }
    destruct (first_marking _ _ _ SL (unvisited_entry _ _ _ Ec Vc) HvL)
      as (sU & sU' & SU & StU & EvU & HnU & HvU).
    destruct (marking_step _ _ _ StU HnU HvU) as (ssU & EU & HVU).
    pose proof (Steps_Evolves _ _ _ _ _ _ SU) as EvWU.
    destruct (evolves_entry _ _ EvWU _ _ Ec) as (ssU' & EU' & HS & _).
    assert (ssU' = ssU) as -> by congruence.
    apply (unvisited_entry sL (TypeName fs) ssL EL VL).
    eapply Evolves_visited; [exact EvU|].
    eapply Evolves_visited; [by eapply Step_Evolves|].
    apply (HVU f); [by rewrite HS, Sc|by apply Href].
Qed.

Lemma loop_keeps_unvisited recurse c vars w w' ssc :
  WalkSpec JsonTag order g eq recurse -> VisitSpec recurse ->
  (forall f, f ∈ vars -> f ∈ parser.Vars c) ->
  wellKeyed (wState w) ->
  manifest (wState w) !! parser.Name c = Some ssc -> Struct ssc = c -> Visited ssc = false ->
  foldOutcome (fieldStep JsonTag recurse) vars w = Ok w' ->
  ~ visited (wState w') (parser.Name c).
Proof.
  intros Hwalk Hvisit. revert w ssc.
  induction vars as [|f vars IH]; intros w ssc Hsub W Ec Sc Vc H; simpl in H.
  - injection H as <-. by eapply unvisited_entry.
  - apply bind_Ok in H as (w1 & H1 & H).
    assert (forall f', f' ∈ vars -> f' ∈ parser.Vars c) as Hsub'.
    { intros f' Hf'. apply Hsub. by right. }
    destruct (decide (parser.VarName f ∈ pbNativeFields)) as [Hn|Hn].
    { rewrite fieldStep_skip in H1 by done. injection H1 as <-. by eapply IH. }
    assert (f ∈ retained (parser.Vars c)) as Hret.
    { apply list_elem_of_filter. split; [done|]. apply Hsub. left. }
    pose proof (fieldStep_keeps_unvisited _ _ _ _ _ _ Hwalk Hvisit Hret W Ec Sc Vc H1) as Hu.
    destruct (fieldStep_Steps JsonTag order g eq (fun s => eq_refl) _ _ _ _ Hwalk W Hn H1)
      as [S1 _].
    pose proof (Steps_Evolves _ _ _ _ _ _ S1) as Ev1.
    destruct (evolves_entry _ _ Ev1 _ _ Ec) as (ss1 & E1 & HS & _).
    eapply (IH w1 ss1); try done.
    + by eapply Evolves_wellKeyed.
    + congruence.
    + destruct (Visited ss1) eqn:V1; [|done]. exfalso. apply Hu. by exists ss1.
Qed.

Lemma gen_VisitSpec fuel : VisitSpec (gen fuel).
Proof.
  induction fuel as [|fuel IH]; intros c s s' ss W E HS V H; [done|].
  destruct (genDTORecursive_unvisited JsonTag order g eq (fun s => eq_refl) fuel c s s' ss)
    as (w & ss1 & Hl & S1 & E1 & _ & HV1 & ->); try done.
  { apply gen_WalkSpec. }
  { intros ss0 E0. congruence. }
  exists (wState w), ss1. do 2 (split; [done|]). split; [|done].
  destruct (Visited ss1) eqn:V1; [|done]. exfalso.
  eapply (loop_keeps_unvisited _ c (parser.Vars c)
            {| wState := s; wFields := ∅; wDTO := [] |} w ss (gen_WalkSpec fuel) IH);
    try done.
  by exists ss1.
Qed.

End IdempotenceFacts.



(** A struct that refers to itself, directly or through another struct,
    exhausts every budget: the visit never returns. *)
Example self_reference_exhausts_budget :
  let node := {| parser.Name := "Node"; parser.Vars := [var "Next" "*Node"] |} in
  genDTORecursive jsonTagModel mapOrderDefault (testGenerator "Node") 50 node (initialState [node])
  = OutOfFuel.
Proof. vm_compute. reflexivity. Qed.

(** ** The output as a whole *)

Section RelationFacts.

Context {A : Type} (R : relation A) (I : A -> Prop).

Lemma rtc_invariant a b : (forall x y, I x -> R x y -> I y) -> rtc R a b -> I a -> I b.
Proof. intros H. induction 1; eauto. Qed.

End RelationFacts.

Lemma NoDup_fmap_eq {A B : Type} (f : A -> B) (l : list A) (a b : A) :
  NoDup (f <$> l) -> a ∈ l -> b ∈ l -> f a = f b -> a = b.
Proof.
  induction l as [|c l IH]; [by intros _ ?%elem_of_nil|].
  rewrite fmap_cons, NoDup_cons.
  intros [Hc Hnd] [->|Ha]%elem_of_cons [->|Hb]%elem_of_cons Heq; auto.
  - exfalso. apply Hc. rewrite Heq. apply list_elem_of_fmap. eauto.
  - exfalso. apply Hc. rewrite <- Heq. apply list_elem_of_fmap. eauto.
Qed.

Section SchemaFacts.

Variable JsonTag : string -> string * string.
Variable order : MapOrder.
Variable g : GenerateDTOFromProtoGo.
Variable structures : list parser.Struct.

(** Any relation between the struct processed and the registered one
    that keeps the walk inside the schema. *)
Variable Q : parser.Struct -> parser.Struct -> Prop.
Hypothesis Q_refl : forall s, Q s s.
Hypothesis Q_in : forall cur reg, Q cur reg -> inSchema structures cur reg.

Local Abbreviation Step := (Step JsonTag order g Q).
Local Abbreviation Steps := (rtc Step).
Local Abbreviation init := (initialState structures).
Local Abbreviation UnitsOf := (UnitsOf JsonTag order g structures).

Lemma Evolves_init_wellKeyed st : Evolves init st -> wellKeyed st.
Proof. intros Ev. eapply Evolves_wellKeyed; [exact Ev|apply initialState_wellKeyed]. Qed.

Lemma generateLoop_Steps_from fuel roots st st' :
  Evolves init st ->
  (forall S s, S ∈ roots -> Evolves init s -> entryOk Q S s) ->
  foldOutcome (generateStep JsonTag order g fuel) roots st = Ok st' ->
  Steps st st'.
Proof.
  revert st. induction roots as [|S roots IH]; intros st Ev HQ H; simpl in H.
  - by injection H as <-.
  - apply bind_Ok in H as (st1 & H1 & H). unfold generateStep in H1.
    assert (forall S' s, S' ∈ roots -> Evolves init s -> entryOk Q S' s) as HQ'.
    { intros S' s HS'. apply HQ. by right. }
    destruct (selected g S).
    + apply (genDTORecursive_Steps _ _ _ Q Q_refl) in H1 as [S1 _];
        [|by apply Evolves_init_wellKeyed|apply HQ; [left|done]].
      etrans; [exact S1|]. apply IH; [|done..].
      etrans; [exact Ev|]. by eapply Steps_Evolves.
    + injection H1 as <-. by apply IH.
Qed.

Lemma visited_insert_marked st x name ss :
  manifest st !! name = Some ss ->
  visited {| manifest := <[name := marked ss]> (manifest st); log := log st |} x
  <-> visited st x \/ x = name.
Proof.
  intros E. unfold visited. simpl. split.
  - intros (ss' & H & V). destruct (decide (name = x)) as [->|Hne]; [by right|].
    rewrite lookup_insert_ne in H by done. left. by exists ss'.
  - intros [(ss' & H & V)| ->].
    + destruct (decide (name = x)) as [->|Hne].
      * exists (marked ss). by rewrite lookup_insert_eq.
      * exists ss'. by rewrite lookup_insert_ne.
    + exists (marked ss). by rewrite lookup_insert_eq.
Qed.

Lemma Step_UnitsOf st st' :
  (Evolves init st /\ exists processed, UnitsOf st processed) -> Step st st' ->
  Evolves init st' /\ exists processed, UnitsOf st' processed.
Proof.
  intros [Ev (processed & [U1 U2 U3 U4])] Hs.
  split; [etrans; [exact Ev|]; by eapply Step_Evolves|].
  destruct Hs as [st cur ss E HC HV HQ|st name ss E V].
  - destruct (reach_entry _ _ _ _ Ev E) as (Hreg & _ & _).
    pose proof (Q_in _ _ HQ Hreg) as Hcur.
    exists (processed ++ [cur]). split; simpl.
    + intros S [HS| ->%list_elem_of_singleton]%elem_of_app; auto.
    + intros S f [HS| ->%list_elem_of_singleton]%elem_of_app Hf; [by eapply U2|].
      destruct (HC f Hf) as [fs Hfs].
      apply classify_parse in Hfs as (a & b & c & Hp). by rewrite Hp.
    + rewrite code_app, U3, flat_map_app. cbn [flat_map]. rewrite app_nil_r.
      unfold unitDecls, unitEvents.
      change (buildManifest structures) with (manifest init).
      by rewrite (Evolves_fieldManifestOf _ _ (parser.Vars cur) Ev).
    + intros x. rewrite fmap_app, elem_of_app. simpl. rewrite list_elem_of_singleton.
      rewrite <- U4.
      apply (visited_insert_marked
               {| manifest := manifest st;
                  log := log st ++ unitEvents JsonTag order g (manifest st) cur |} x _ ss E).
  - exists processed.
    assert (<[name := marked ss]> (manifest st) = manifest st) as Hm.
    { rewrite marked_visited by done. by apply insert_id. }
    split; simpl; auto.
    + by rewrite code_app, U3, app_nil_r.
    + intros x. rewrite <- U4. unfold visited. simpl. by rewrite Hm.
Qed.

Lemma initialState_UnitsOf : UnitsOf init [].
Proof.
  split; simpl; try done.
  - intros S ?%elem_of_nil. done.
  - intros S f ?%elem_of_nil. done.
  - intros x. split; [|by intros ?%elem_of_nil].
    intros (ss & H & V). apply buildManifest_Some in H as (_ & _ & ?). congruence.
Qed.

Lemma Steps_UnitsOf st : Steps init st -> exists processed, UnitsOf st processed.
Proof.
  intros H.
  apply (rtc_invariant Step
           (fun s => Evolves init s /\ exists processed, UnitsOf s processed) _ _ Step_UnitsOf H).
  split; [done|]. exists []. apply initialState_UnitsOf.
Qed.

(** A DTO type of the output is the type of a processed struct. *)
Lemma UnitsOf_struct st processed i name fields :
  UnitsOf st processed ->
  code (log st) !! i = Some (DStruct name fields) ->
  exists S, S ∈ processed /\ parser.Name S = name
            /\ fields = dtoFieldsOf JsonTag (parser.Vars S).
Proof.
  intros [_ _ U3 _] Hi. rewrite U3 in Hi.
  apply list_elem_of_lookup_2 in Hi.
  apply elem_of_cons in Hi as [[=]|Hi].
  apply list_elem_of_In, in_flat_map in Hi as (S & HS & Hd).
  apply list_elem_of_In in HS. apply list_elem_of_In in Hd.
  apply list_elem_of_lookup in Hd as [k Hk].
  apply unit_struct_lookup in Hk as (_ & -> & ->).
  by exists S.
Qed.

End SchemaFacts.

Section RunFacts.

Import emitted.

Variable JsonTag : string -> string * string.
Variable order : MapOrder.
Variable g : GenerateDTOFromProtoGo.
Variable structures : list parser.Struct.

Local Abbreviation init := (initialState structures).
Local Abbreviation run := (generateStructs JsonTag order g).

Lemma generateStructs_Steps_inSchema fuel st :
  run fuel structures = Ok st ->
  rtc (Step JsonTag order g (inSchema structures)) init st.
Proof.
  apply (generateLoop_Steps_from JsonTag order g structures (inSchema structures));
    [by intros s Hs|done|].
  intros S s HS _ ss _ _. exact HS.
Qed.

Lemma generateStructs_UnitsOf fuel st :
  run fuel structures = Ok st ->
  exists processed, UnitsOf JsonTag order g structures st processed.
Proof.
  intros H%generateStructs_Steps_inSchema.
  by apply (Steps_UnitsOf JsonTag order g structures (inSchema structures)).
Qed.

Lemma generateStructs_Evolves fuel st : run fuel structures = Ok st -> Evolves init st.
Proof. intros H%generateStructs_Steps. by eapply Steps_Evolves. Qed.

(** *** The selected structs *)

Lemma generateLoop_roots_visited fuel roots st st' :
  wellKeyed st ->
  foldOutcome (generateStep JsonTag order g fuel) roots st = Ok st' ->
  forall S, S ∈ roots -> selected g S = true -> visited st' (parser.Name S).
Proof.
  revert st. induction roots as [|R roots IH]; intros st W H S HS Hsel;
    [by apply elem_of_nil in HS|].
  simpl in H. apply bind_Ok in H as (st1 & H1 & H).
  assert (rtc (Step JsonTag order g anyStruct) st st1) as S1.
  { apply (generateLoop_Steps JsonTag order g fuel [R]); [done|].
    simpl. by rewrite H1. }
  pose proof (Steps_wellKeyed _ _ _ _ _ _ S1 W) as W1.
  apply elem_of_cons in HS as [->|HS]; [|by eapply IH].
  unfold generateStep in H1. rewrite Hsel in H1.
  apply (genDTORecursive_Steps _ _ _ anyStruct) in H1 as [_ V1]; [|done..].
  eapply Evolves_visited; [|exact V1].
  eapply Steps_Evolves. by eapply generateLoop_Steps.
Qed.

(** *** Reference cycles *)

Hypothesis unique : NoDup (parser.Name <$> structures).

(** The struct a DTO type refers to has its type at an earlier position
    of the output. *)
Lemma edge_descends fuel st a b :
  run fuel structures = Ok st ->
  edge structures a b ->
  forall i fields,
    code (log st) !! i = Some (DStruct a fields) ->
    exists j fields', j < i /\ code (log st) !! j = Some (DStruct b fields').
Proof.
  intros H (S' & f & HS' & HN & Hf & (sl & mp & k & Hp & Hr)) i fields Hi.
  destruct (generateStructs_UnitsOf _ _ H) as [processed U].
  pose proof (generateStructs_Ordered _ _ _ _ _ _ H) as [_ TM].
  pose proof (generateStructs_Evolves _ _ H) as Ev.
  destruct (UnitsOf_struct _ _ _ _ _ _ _ _ _ U Hi) as (S & HS & HN' & ->).
  assert (S' = S) as ->.
  { apply (NoDup_fmap_eq parser.Name structures); try done.
    - by apply (units_schema _ _ _ _ _ _ U).
    - congruence. }
  destruct (TM i a _ (member JsonTag f) (parser.VarType f) b sl mp k Hi)
    as (j & Hj & (fields' & fm & Hj0 & _)); try done.
  - unfold dtoFieldsOf. apply list_elem_of_fmap. eauto.
  - by apply (Evolves_registered _ _ b Ev).
  - exists j, fields'. split; [lia|done].
Qed.


(** What a visited struct refers to is visited. *)
Lemma visited_closed fuel st x y :
  run fuel structures = Ok st ->
  rtc (edge structures) x y -> visited st x -> visited st y.
Proof.
  intros H. induction 1 as [|a b c Hab _ IH]; [done|]. intros Va. apply IH.
  pose proof (generateStructs_Ordered _ _ _ _ _ _ H) as [TV _].
  destruct (TV _ Va) as (i & _ & (fields & fm & Hi & _)).
  destruct (edge_descends fuel st a b H Hab i fields Hi) as (j & fields' & _ & Hj).
  destruct (generateStructs_UnitsOf _ _ H) as [processed U].
  destruct (UnitsOf_struct _ _ _ _ _ _ _ _ _ U Hj) as (S & HS & <- & _).
  apply (units_visited _ _ _ _ _ _ U). by apply list_elem_of_fmap_2.
Qed.

(** The fields of a visited struct were all classified. *)
Lemma visited_parses fuel st T f :
  run fuel structures = Ok st ->
  T ∈ structures -> visited st (parser.Name T) -> f ∈ retained (parser.Vars T) ->
  is_Some (parseFieldType (parser.VarType f)).
Proof.
  intros H HT V Hf.
  destruct (generateStructs_UnitsOf _ _ H) as [processed U].
  apply (units_visited _ _ _ _ _ _ U) in V.
  apply list_elem_of_fmap in V as (T' & HN & HT').
  assert (T' = T) as ->.
  { apply (NoDup_fmap_eq parser.Name structures); try done.
    by apply (units_schema _ _ _ _ _ _ U). }
  by apply (units_parse _ _ _ _ _ _ U T f).
Qed.


End RunFacts.

(** X7. The declarations a returned run hands over are the blank line
    followed by the units of a sequence of structs of the schema, one
    whole unit after the other. Each unit depends on its struct and the
    schema only, not on the struct the walk came from; the classifier
    returned on every retained field of these structs; and the structs
    of the sequence are those whose flag is raised. *)
Theorem output_is_units_of_schema
    (JsonTag : string -> string * string) (order : MapOrder) (g : GenerateDTOFromProtoGo)
    (fuel : nat) (structures : list parser.Struct) (st : GenState) :
  generateStructs JsonTag order g fuel structures = Ok st ->
  exists processed,
    (forall S, S ∈ processed ->
       S ∈ structures
       /\ forall f, f ∈ retained (parser.Vars S) -> is_Some (parseFieldType (parser.VarType f)))
    /\ code (log st) = DNewLine :: flat_map (unitDecls JsonTag order g structures) processed
    /\ (forall x, visited st x <-> x ∈ parser.Name <$> processed).
Proof.
  intros H. destruct (generateStructs_UnitsOf _ _ _ _ _ _ H) as [processed [U1 U2 U3 U4]].
  exists processed. split; [|done]. intros S HS. split; [by apply U1|].
  intros f Hf. by eapply U2.
Qed.

Lemma output_is_units_of_schema_witness :
  exists st,
    generateStructs jsonTagModel mapOrderDefault (testGenerator "Envelope") 3 envelopeSchema = Ok st
    /\ exists processed,
         (forall S, S ∈ processed ->
            S ∈ envelopeSchema
            /\ forall f, f ∈ retained (parser.Vars S) ->
                         is_Some (parseFieldType (parser.VarType f)))
         /\ code (log st)
            = DNewLine :: flat_map (unitDecls jsonTagModel mapOrderDefault
                                      (testGenerator "Envelope") envelopeSchema) processed
         /\ (forall x, visited st x <-> x ∈ parser.Name <$> processed).
Proof.
  eexists. split; [vm_compute; reflexivity|].
  apply (output_is_units_of_schema jsonTagModel mapOrderDefault (testGenerator "Envelope") 3
           envelopeSchema).
  vm_compute. reflexivity.
Defined.





(** X10. A visit that returns leaves its struct visited and only adds to the
    state: every name keeps its entry and its struct, no name is added,
    no raised flag is lowered, and the history is extended, never
    rewritten. *)
Theorem visit_only_extends_state
    (JsonTag : string -> string * string) (order : MapOrder) (g : GenerateDTOFromProtoGo)
    (fuel : nat) (cur : parser.Struct) (st st' : GenState) :
  wellKeyed st ->
  genDTORecursive JsonTag order g fuel cur st = Ok st' ->
  Evolves st st' /\ visited st' (parser.Name cur).
Proof.
  intros W H.
  apply (genDTORecursive_Steps _ _ _ anyStruct) in H as [S1 V1]; [|done..].
  split; [|done]. by eapply Steps_Evolves.
Qed.

Lemma visit_only_extends_state_witness :
  let cur := {| parser.Name := "Envelope"; parser.Vars := [var "Items" "[]*Item"] |} in
  exists st',
    genDTORecursive jsonTagModel mapOrderDefault (testGenerator "Envelope") 2 cur
      (initialState envelopeSchema) = Ok st'
    /\ Evolves (initialState envelopeSchema) st' /\ visited st' "Envelope".
Proof.
  intros cur. eexists. split; [vm_compute; reflexivity|].
  apply (visit_only_extends_state jsonTagModel mapOrderDefault (testGenerator "Envelope") 2 cur).
  - apply initialState_wellKeyed.
  - vm_compute. reflexivity.
Defined.

(** X16. When the struct names of the schema are distinct, a field type on
    which the classifier panics stops the whole run as soon as its
    struct is selected or a chain of references leads to it from a
    selected struct: no budget lets the run return, so no file is
    written. *)
Theorem unclassifiable_field_stops_run
    (JsonTag : string -> string * string) (order : MapOrder) (g : GenerateDTOFromProtoGo)
    (structures : list parser.Struct) (S T : parser.Struct) (f : parser.NamedTypeValue)
    (fuel : nat) (st : GenState) :
  NoDup (parser.Name <$> structures) ->
  S ∈ structures -> selected g S = true ->
  rtc (edge structures) (parser.Name S) (parser.Name T) ->
  T ∈ structures -> f ∈ retained (parser.Vars T) ->
  parseFieldType (parser.VarType f) = None ->
  generateStructs JsonTag order g fuel structures <> Ok st.
Proof.
  intros Hnd HS Hsel Hreach HT Hf Hnone H.
  assert (visited st (parser.Name S)) as V.
  { apply (generateLoop_roots_visited JsonTag order g fuel structures (initialState structures));
      try done. apply initialState_wellKeyed. }
  apply (visited_closed JsonTag order g structures Hnd fuel st _ _ H Hreach) in V.
  destruct (visited_parses JsonTag order g structures Hnd fuel st T f H HT V Hf) as [p Hp].
  congruence.
Qed.

Lemma unclassifiable_field_stops_run_witness :
  let schema := [ {| parser.Name := "PingRequest"; parser.Vars := [var "Body" "*Body"] |};
                  {| parser.Name := "Body"; parser.Vars := [var "Tags" "map[string"] |} ] in
  generateStructs jsonTagModel mapOrderDefault (testGenerator "") 5 schema
  <> Ok (initialState schema).
Proof.
  intros schema.
  apply (unclassifiable_field_stops_run jsonTagModel mapOrderDefault (testGenerator "") schema
           {| parser.Name := "PingRequest"; parser.Vars := [var "Body" "*Body"] |}
           {| parser.Name := "Body"; parser.Vars := [var "Tags" "map[string"] |}
           (var "Tags" "map[string")).
  - apply (bool_decide_unpack _). vm_compute. reflexivity.
  - apply list_elem_of_here.
  - reflexivity.
  - apply rtc_once.
    exists {| parser.Name := "PingRequest"; parser.Vars := [var "Body" "*Body"] |},
           (var "Body" "*Body").
    split; [apply list_elem_of_here|]. split; [reflexivity|].
    split; [vm_compute; apply list_elem_of_here|].
    exists false, false, EmptyString. split; [reflexivity|].
    vm_compute. eauto.
  - apply list_elem_of_further, list_elem_of_here.
  - vm_compute. apply list_elem_of_here.
  - reflexivity.
Defined.

(** ** One unit for each name *)

Section CountFacts.

Variable JsonTag : string -> string * string.
Variable order : MapOrder.
Variable g : GenerateDTOFromProtoGo.

Local Abbreviation gen := (genDTORecursive JsonTag order g).
Local Abbreviation WalkSpec := (WalkSpec JsonTag order g eq).
Local Abbreviation VisitSpec := (VisitSpec JsonTag order g).

Lemma flagOf_visited st x : flagOf st x = true <-> visited st x.
Proof.
  unfold flagOf, visited. destruct (manifest st !! x) as [ss|]; split.
  - intros V. by exists ss.
  - by intros (ss' & [= <-] & V).
  - done.
  - by intros (ss' & [=] & _).
Qed.

Lemma Counted_mark st name ss :
  manifest st !! name = Some ss -> Visited ss = true -> Counted st ->
  Counted {| manifest := <[name := marked ss]> (manifest st);
             log := log st ++ [MarkVisited name] |}.
Proof.
  intros E V C x. unfold flagOf. simpl.
  rewrite marked_visited by done. rewrite insert_id by done.
  rewrite code_app. simpl. rewrite app_nil_r. apply C.
Qed.

Lemma Counted_unit st M cur ss :
  manifest st !! parser.Name cur = Some ss -> Visited ss = false -> Counted st ->
  Counted {| manifest := <[parser.Name cur := marked ss]> (manifest st);
             log := log st ++ unitEvents JsonTag order g M cur |}.
Proof.
  intros E V C x. unfold flagOf. simpl.
  rewrite code_app, typesNamed_app, typesNamed_unit, (C x). unfold flagOf.
  destruct (decide (parser.Name cur = x)) as [<-|Hne].
  - by rewrite lookup_insert_eq, E, V.
  - rewrite lookup_insert_ne by done. lia.
Qed.

Lemma fieldStep_Counted recurse w f w' :
  WalkSpec recurse -> CountSpec recurse ->
  wellKeyed (wState w) -> Counted (wState w) ->
  fieldStep JsonTag recurse w f = Ok w' ->
  Counted (wState w').
Proof.
  intros Hwalk Hcount W C H.
  destruct (decide (parser.VarName f ∈ pbNativeFields)) as [Hn|Hn].
  { rewrite fieldStep_skip in H by done. by injection H as <-. }
  destruct (fieldStep_Ok _ _ _ _ _ Hn H) as (fs & _ & _ & _ & Hm).
  destruct (manifest (wState w) !! TypeName fs) as [ss|] eqn:E; [|by rewrite Hm].
  destruct (Visited ss) eqn:V; [by rewrite Hm|].
  destruct Hm as (st1 & H1 & H2).
  pose proof (W _ _ E) as HN.
  assert (manifest (wState w) !! parser.Name (Struct ss) = Some ss) as E' by (by rewrite HN).
  pose proof (Hcount (Struct ss) (wState w) st1 ss W E' eq_refl C H1) as C1.
  destruct (Hwalk (Struct ss) (wState w) st1 W) as [_ V1]; [|done|].
  { intros ss0 E0. congruence. }
  rewrite HN in V1. apply setVisited_Ok in H2 as (ss1 & E1 & ->).
  apply Counted_mark; [done| |done].
  destruct V1 as (ss1' & E1' & V1'). congruence.
Qed.

Lemma loop_Counted recurse vars w w' :
  WalkSpec recurse -> CountSpec recurse ->
  wellKeyed (wState w) -> Counted (wState w) ->
  foldOutcome (fieldStep JsonTag recurse) vars w = Ok w' ->
  Counted (wState w').
Proof.
  intros Hwalk Hcount. revert w.
  induction vars as [|f vars IH]; intros w W C H; simpl in H; [by injection H as <-|].
  apply bind_Ok in H as (w1 & H1 & H).
  apply (IH w1); [|by eapply fieldStep_Counted|done].
  destruct (decide (parser.VarName f ∈ pbNativeFields)) as [Hn|Hn].
  { rewrite fieldStep_skip in H1 by done. by injection H1 as <-. }
  destruct (fieldStep_Steps JsonTag order g eq (fun s => eq_refl) _ _ _ _ Hwalk W Hn H1)
    as [S1 _].
  by eapply Steps_wellKeyed.
Qed.

Lemma gen_CountSpec fuel : CountSpec (gen fuel).
Proof.
  induction fuel as [|fuel IH]; intros c s s' ss W E HS C H; [done|].
  destruct (Visited ss) eqn:V.
  { simpl in H. rewrite E in H. simpl in H. rewrite V in H. by injection H as <-. }
  destruct (genDTORecursive_unvisited JsonTag order g eq (fun s => eq_refl) fuel c s s' ss)
    as (w & ss1 & Hl & _ & E1 & _ & _ & ->); try done.
  { apply gen_WalkSpec. }
  { intros ss0 E0. congruence. }
  apply Counted_unit; [done| |].
  - destruct (Visited ss1) eqn:V1; [|done]. exfalso.
    eapply (loop_keeps_unvisited JsonTag order g _ c (parser.Vars c)
              {| wState := s; wFields := ∅; wDTO := [] |} w ss (gen_WalkSpec _ _ _ fuel)
              (gen_VisitSpec _ _ _ fuel)); try done.
    by exists ss1.
  - eapply (loop_Counted _ _ {| wState := s; wFields := ∅; wDTO := [] |});
      [apply gen_WalkSpec|exact IH|done|done|exact Hl].
Qed.

(** *** Runs on a schema with distinct names *)

Variable structures : list parser.Struct.
Hypothesis unique : NoDup (parser.Name <$> structures).

Lemma unique_entry st S :
  Evolves (initialState structures) st -> S ∈ structures ->
  exists ss, manifest st !! parser.Name S = Some ss /\ Struct ss = S.
Proof.
  intros Ev HS. destruct (reach_registered _ _ _ Ev HS) as [ss E].
  exists ss. split; [done|].
  destruct (reach_entry _ _ _ _ Ev E) as (Hin & HN & _).
  by apply (NoDup_fmap_eq parser.Name structures).
Qed.

Lemma initialState_Counted : Counted (initialState structures).
Proof.
  intros x. unfold flagOf. simpl.
  destruct (buildManifest structures !! x) as [ss|] eqn:E; [|done].
  apply buildManifest_Some in E as (_ & _ & ->). done.
Qed.

Lemma generateLoop_Counted fuel roots st st' :
  (forall S, S ∈ roots -> S ∈ structures) ->
  Evolves (initialState structures) st -> Counted st ->
  foldOutcome (generateStep JsonTag order g fuel) roots st = Ok st' ->
  Counted st'.
Proof.
  revert st. induction roots as [|R roots IH]; intros st Hsub Ev C H; simpl in H;
    [by injection H as <-|].
  apply bind_Ok in H as (st1 & H1 & H).
  pose proof (Evolves_init_wellKeyed _ _ Ev) as W.
  assert (Evolves (initialState structures) st1) as Ev1.
  { etrans; [exact Ev|]. eapply Steps_Evolves.
    apply (generateLoop_Steps JsonTag order g fuel [R]); [done|]. simpl. by rewrite H1. }
  apply (IH st1); [intros S HS; apply Hsub; by right|done| |done].
  unfold generateStep in H1. destruct (selected g R); [|by injection H1 as <-].
  destruct (unique_entry st R Ev) as (ss & E & HS); [apply Hsub; left|].
  by apply (gen_CountSpec fuel R st st1 ss).
Qed.

Lemma generateStructs_Counted fuel st :
  generateStructs JsonTag order g fuel structures = Ok st -> Counted st.
Proof.
  apply generateLoop_Counted; [done|done|apply initialState_Counted].
Qed.

End CountFacts.

(** X11. When the struct names of the schema are distinct, the output of a
    returned run holds exactly one DTO type for each struct whose flag is
    raised and none for any other name: no struct is generated twice,
    however many fields and selected structs lead to it. *)
Theorem one_type_per_visited_name
    (JsonTag : string -> string * string) (order : MapOrder) (g : GenerateDTOFromProtoGo)
    (fuel : nat) (structures : list parser.Struct) (st : GenState) (x : string) :
  NoDup (parser.Name <$> structures) ->
  generateStructs JsonTag order g fuel structures = Ok st ->
  typesNamed x (code (log st)) <= 1
  /\ (typesNamed x (code (log st)) = 1 <-> visited st x).
Proof.
  intros Hnd H.
  pose proof (generateStructs_Counted JsonTag order g structures Hnd fuel st H x) as C.
  rewrite <- flagOf_visited. destruct (flagOf st x); rewrite C; split; try lia; done.
Qed.

Lemma one_type_per_visited_name_witness :
  exists st,
    generateStructs jsonTagModel mapOrderDefault (testGenerator "Something") 3 sampleSchema = Ok st
    /\ typesNamed "StructVal" (code (log st)) <= 1
    /\ (typesNamed "StructVal" (code (log st)) = 1 <-> visited st "StructVal").
Proof.
  eexists. split; [vm_compute; reflexivity|].
  apply (one_type_per_visited_name jsonTagModel mapOrderDefault (testGenerator "Something") 3
           sampleSchema).
  - apply (bool_decide_unpack _). vm_compute. reflexivity.
  - vm_compute. reflexivity.
Defined.

(** ** What is generated: the selected structs and what they refer to *)

Section ReachFacts.

Variable JsonTag : string -> string * string.
Variable order : MapOrder.
Variable g : GenerateDTOFromProtoGo.
Variable structures : list parser.Struct.

Local Abbreviation gen := (genDTORecursive JsonTag order g).
Local Abbreviation init := (initialState structures).
Local Abbreviation WalkSpec := (WalkSpec JsonTag order g anyStruct).
Local Abbreviation ReachSpec := (ReachSpec structures).
Local Abbreviation fromRoot := (fromRoot structures).

Lemma fromRoot_edge x y e : edge structures x y -> fromRoot y e -> fromRoot x e.
Proof.
  intros Hxy. destruct e as [[n fields| |]|]; simpl; try done.
  intros Hy. by eapply rtc_l.
Qed.

Lemma anyStruct_entryOk c s : entryOk anyStruct c s.
Proof. by intros ss _. Qed.

Lemma fieldStep_reach recurse cur w f w' :
  WalkSpec recurse -> ReachSpec recurse ->
  cur ∈ structures -> f ∈ parser.Vars cur ->
  Evolves init (wState w) ->
  fieldStep JsonTag recurse w f = Ok w' ->
  Evolves init (wState w')
  /\ exists new, log (wState w') = log (wState w) ++ new
                 /\ Forall (fromRoot (parser.Name cur)) new.
Proof.
  intros Hwalk Hreach Hcur Hf Ev H.
  assert (Evolves init (wState w)
          /\ exists new, log (wState w) = log (wState w) ++ new
                         /\ Forall (fromRoot (parser.Name cur)) new) as Hsame.
  { split; [done|]. exists []. by rewrite app_nil_r. }
  destruct (decide (parser.VarName f ∈ pbNativeFields)) as [Hn|Hn].
  { rewrite fieldStep_skip in H by done. by injection H as <-. }
  destruct (fieldStep_Ok _ _ _ _ _ Hn H) as (fs & Hc & _ & _ & Hm).
  destruct (manifest (wState w) !! TypeName fs) as [ss|] eqn:E; [|by rewrite Hm].
  destruct (Visited ss) eqn:V; [by rewrite Hm|].
  destruct Hm as (st1 & H1 & H2).
  destruct (reach_entry _ _ _ _ Ev E) as (Hin & HN & Hreg).
  pose proof (Evolves_init_wellKeyed _ _ Ev) as W.
  destruct (Hwalk (Struct ss) (wState w) st1 W (anyStruct_entryOk _ _) H1) as [S1 _].
  destruct (Hreach (Struct ss) (wState w) st1 Ev Hin H1) as (new & Hlog & Hnew).
  apply setVisited_Ok in H2 as (ss1 & E1 & ->). simpl. split.
  - etrans; [exact Ev|]. etrans; [by eapply Steps_Evolves|]. by apply Evolves_mark.
  - exists (new ++ [MarkVisited (TypeName fs)]). rewrite Hlog, <- app_assoc. split; [done|].
    apply Forall_app. split; [|by apply Forall_singleton].
    destruct (classify_parse _ _ _ Hc) as (sl & mp & k & Hp).
    eapply Forall_impl; [exact Hnew|]. intros e. rewrite HN.
    apply fromRoot_edge. exists cur, f. split; [done|]. split; [done|].
    split; [by apply list_elem_of_filter|]. by exists sl, mp, k.
Qed.

Lemma loop_reach recurse cur vars w w' :
  WalkSpec recurse -> ReachSpec recurse ->
  cur ∈ structures -> (forall f, f ∈ vars -> f ∈ parser.Vars cur) ->
  Evolves init (wState w) ->
  foldOutcome (fieldStep JsonTag recurse) vars w = Ok w' ->
  exists new, log (wState w') = log (wState w) ++ new
              /\ Forall (fromRoot (parser.Name cur)) new.
Proof.
  intros Hwalk Hreach Hcur. revert w.
  induction vars as [|f vars IH]; intros w Hsub Ev H; simpl in H.
  - injection H as <-. exists []. by rewrite app_nil_r.
  - apply bind_Ok in H as (w1 & H1 & H).
    destruct (fieldStep_reach _ cur _ _ _ Hwalk Hreach Hcur (Hsub f (list_elem_of_here _ _)) Ev H1)
      as (Ev1 & new1 & L1 & F1).
    destruct (IH w1 (fun f' Hf' => Hsub f' (list_elem_of_further _ _ _ Hf')) Ev1 H)
      as (new2 & L2 & F2).
    exists (new1 ++ new2). rewrite L2, L1, <- app_assoc. split; [done|].
    by apply Forall_app.
Qed.

Lemma unitEvents_fromRoot M cur :
  Forall (fromRoot (parser.Name cur)) (unitEvents JsonTag order g M cur).
Proof.
  unfold unitEvents, fromPBFunction, toPBFunction.
  repeat first [apply Forall_nil_2 | apply Forall_cons_2]; simpl; try done.
Qed.

Lemma gen_ReachSpec fuel : ReachSpec (gen fuel).
Proof.
  induction fuel as [|fuel IH]; intros c s s' Ev Hc H; [done|].
  pose proof (Evolves_init_wellKeyed _ _ Ev) as W.
  destruct (reach_registered _ _ _ Ev Hc) as [ss E].
  destruct (Visited ss) eqn:V.
  { simpl in H. rewrite E in H. simpl in H. rewrite V in H. injection H as <-.
    exists []. by rewrite app_nil_r. }
  assert (WalkSpec (gen fuel)) as Hwalk.
  { intros c0 s0 s0'. by apply genDTORecursive_Steps. }
  destruct (genDTORecursive_unvisited JsonTag order g anyStruct (fun s => I) fuel c s s' ss)
    as (w & ss1 & Hl & _ & _ & _ & _ & ->); try done.
  destruct (loop_reach _ c (parser.Vars c) {| wState := s; wFields := ∅; wDTO := [] |} w
              Hwalk IH Hc (fun f Hf => Hf) Ev Hl) as (new & L & F).
  simpl in L. simpl.
  exists (new ++ unitEvents JsonTag order g (manifest (wState w)) c).
  rewrite L, <- app_assoc. split; [done|].
  apply Forall_app. split; [done|apply unitEvents_fromRoot].
Qed.

Lemma fromRoot_selected S e :
  S ∈ structures -> selected g S = true ->
  fromRoot (parser.Name S) e -> fromSelected g structures e.
Proof.
  intros HS Hsel. destruct e as [[n fields| |]|]; simpl; try done.
  intros Hr. by exists S.
Qed.

Lemma generateLoop_reach fuel roots st st' :
  (forall S, S ∈ roots -> S ∈ structures) ->
  Evolves init st ->
  foldOutcome (generateStep JsonTag order g fuel) roots st = Ok st' ->
  exists new, log st' = log st ++ new /\ Forall (fromSelected g structures) new.
Proof.
  revert st. induction roots as [|R roots IH]; intros st Hsub Ev H; simpl in H.
  - injection H as <-. exists []. by rewrite app_nil_r.
  - apply bind_Ok in H as (st1 & H1 & H).
    pose proof (Evolves_init_wellKeyed _ _ Ev) as W.
    assert (Evolves init st1) as Ev1.
    { etrans; [exact Ev|]. eapply Steps_Evolves.
      apply (generateLoop_Steps JsonTag order g fuel [R]); [done|]. simpl. by rewrite H1. }
    destruct (IH st1 (fun S HS => Hsub S (list_elem_of_further _ _ _ HS)) Ev1 H)
      as (new2 & L2 & F2).
    unfold generateStep in H1. destruct (selected g R) eqn:Hsel.
    + destruct (gen_ReachSpec fuel R st st1 Ev (Hsub R (list_elem_of_here _ _)) H1)
        as (new1 & L1 & F1).
      exists (new1 ++ new2). rewrite L2, L1, <- app_assoc. split; [done|].
      apply Forall_app. split; [|done].
      eapply Forall_impl; [exact F1|]. intros e.
      apply fromRoot_selected; [|done]. apply Hsub. left.
    + injection H1 as <-. by exists new2.
Qed.

End ReachFacts.

(** X12. Nothing is generated that was not asked for: every DTO type in the
    output of a returned run is the type of a struct the loop of
    [Generate] selects, or of a struct that a chain of retained fields
    leads to from a selected one. *)
Theorem generated_types_stem_from_selected
    (JsonTag : string -> string * string) (order : MapOrder) (g : GenerateDTOFromProtoGo)
    (fuel : nat) (structures : list parser.Struct) (st : GenState)
    (i : nat) (name : string) (fields : list jen.Code) :
  generateStructs JsonTag order g fuel structures = Ok st ->
  code (log st) !! i = Some (DStruct name fields) ->
  exists S, S ∈ structures /\ selected g S = true
            /\ rtc (edge structures) (parser.Name S) name.
Proof.
  intros H Hi.
  destruct (generateLoop_reach JsonTag order g structures fuel structures
              (initialState structures) st) as (new & L & F); try done.
  apply list_elem_of_lookup_2, elem_of_code in Hi.
  rewrite L in Hi. simpl in Hi.
  apply elem_of_cons in Hi as [[=]|Hi].
  rewrite Forall_forall in F. exact (F _ Hi).
Qed.

Lemma generated_types_stem_from_selected_witness :
  exists S, S ∈ sampleSchema /\ selected (testGenerator "Something") S = true
            /\ rtc (edge sampleSchema) (parser.Name S) "StructVal".
Proof.
  eapply (generated_types_stem_from_selected jsonTagModel mapOrderDefault
            (testGenerator "Something") 3 sampleSchema _ 1 "StructVal").
  - vm_compute. reflexivity.
  - reflexivity.
Defined.

(** ** The conversion functions as a whole *)

#[global] Instance fieldKey_inj : Inj (=) (=) fieldKey.
Proof. by intros a b [= ->]. Qed.

Section BindingFacts.

Import jen emitted.

Variable order : MapOrder.
Variable g : GenerateDTOFromProtoGo.

Lemma fromPBField_adds (b : Binding) (e : string * fieldState) :
  shortVarDecls (funcBody (fromPBField g b e))
  = shortVarDecls (funcBody b) ++ option_list (tempVar e.2)
  /\ (assignments (fromPBField g b e)).*1 = (assignments b).*1 ++ [fieldKey e.1].
Proof.
  unfold fromPBField, tempVar, shortVarDecls.
  destruct (IsStructType e.2), (IsMap e.2), (IsSlice e.2); simpl;
    rewrite ?omap_app, ?fmap_app, ?app_nil_r; done.
Qed.

Lemma toPBField_adds (b : Binding) (e : string * fieldState) :
  shortVarDecls (funcBody (toPBField g b e))
  = shortVarDecls (funcBody b) ++ option_list (tempVar e.2)
  /\ (assignments (toPBField g b e)).*1 = (assignments b).*1 ++ [fieldKey e.1].
Proof.
  unfold toPBField, tempVar, shortVarDecls.
  destruct (IsStructType e.2), (IsMap e.2), (IsSlice e.2); simpl;
    rewrite ?omap_app, ?fmap_app, ?app_nil_r; done.
Qed.

Lemma foldl_adds (step : Binding -> string * fieldState -> Binding) l b :
  (forall b e,
     shortVarDecls (funcBody (step b e))
     = shortVarDecls (funcBody b) ++ option_list (tempVar e.2)
     /\ (assignments (step b e)).*1 = (assignments b).*1 ++ [fieldKey e.1]) ->
  shortVarDecls (funcBody (foldl step b l))
  = shortVarDecls (funcBody b) ++ omap (fun e => tempVar e.2) l
  /\ (assignments (foldl step b l)).*1 = (assignments b).*1 ++ (fieldKey <$> l.*1).
Proof.
  intros Hstep. revert b. induction l as [|e l IH]; intros b; simpl.
  - by rewrite !app_nil_r.
  - destruct (IH (step b e)) as [-> ->]. destruct (Hstep b e) as [-> ->].
    rewrite <- !app_assoc. split; [|done]. f_equal. by destruct (tempVar e.2).
Qed.

Lemma fromPBFunction_reading name fm :
  declared (fromPBFunction order g name fm)
  = omap (fun e => tempVar e.2) (order FromPB name fm)
  /\ literalKeys (fromPBFunction order g name fm) = fieldKey <$> (order FromPB name fm).*1.
Proof.
  unfold declared, literalKeys, fromPBFunction, bodyOf, returnedEntries.
  rewrite last_snoc. unfold shortVarDecls. rewrite omap_app. simpl. rewrite app_nil_r.
  unfold fromPBBinding.
  destruct (foldl_adds (fromPBField g) (order FromPB name fm)
              {| funcBody := [nilGuard "pb"]; assignments := [] |} fromPBField_adds) as [H1 H2].
  unfold shortVarDecls in H1. by rewrite H1, H2.
Qed.

Lemma toPBFunction_reading name fm :
  declared (toPBFunction order g name fm)
  = omap (fun e => tempVar e.2) (order ToPB name fm)
  /\ literalKeys (toPBFunction order g name fm) = fieldKey <$> (order ToPB name fm).*1.
Proof.
  unfold declared, literalKeys, toPBFunction, bodyOf, returnedEntries.
  rewrite last_snoc. unfold shortVarDecls. rewrite omap_app. simpl. rewrite app_nil_r.
  unfold toPBBinding.
  destruct (foldl_adds (toPBField g) (order ToPB name fm)
              {| funcBody := [nilGuard "orig"]; assignments := [] |} toPBField_adds) as [H1 H2].
  unfold shortVarDecls in H1. by rewrite H1, H2.
Qed.

Lemma keys_of_order d name fm :
  fieldKey <$> (order d name fm).*1 ≡ₚ fieldKey <$> (map_to_list fm).*1.
Proof. by rewrite (rangeOver_perm order d name fm). Qed.

Lemma NoDup_keys (fm : gmap string fieldState) : NoDup (fieldKey <$> (map_to_list fm).*1).
Proof. apply (NoDup_fmap_2 fieldKey), NoDup_fst_map_to_list. Qed.

End BindingFacts.

Section OmapFacts.

Context {A B : Type} (f : A -> option B).

Lemma NoDup_omap_iff (l : list A) :
  NoDup l ->
  NoDup (omap f l)
  <-> forall a b x, a ∈ l -> b ∈ l -> f a = Some x -> f b = Some x -> a = b.
Proof.
  induction l as [|c l IH]; intros Hnd.
  - split; [by intros _ a b x ?%elem_of_nil|intros _; apply NoDup_nil_2].
  - apply NoDup_cons in Hnd as [Hc Hnd]. specialize (IH Hnd). simpl.
    destruct (f c) as [y|] eqn:Ec.
    + rewrite NoDup_cons, list_elem_of_omap, IH. split.
      * intros [Hy Hl] a b x [->|Ha]%elem_of_cons [->|Hb]%elem_of_cons Hfa Hfb; auto.
        -- exfalso. apply Hy. exists b. split; [done|congruence].
        -- exfalso. apply Hy. exists a. split; [done|congruence].
        -- by apply (Hl a b x).
      * intros H. split.
        -- intros (a & Ha & Hfa). apply Hc.
           rewrite (H c a y); [done|left|by right|done..].
        -- intros a b x Ha Hb. apply H; by right.
    + rewrite IH. split.
      * intros Hl a b x [->|Ha]%elem_of_cons [->|Hb]%elem_of_cons Hfa Hfb;
          try congruence. by apply (Hl a b x).
      * intros H a b x Ha Hb. apply H; by right.
Qed.

End OmapFacts.

Lemma NoDup_temps (fm : gmap string fieldState) :
  NoDup (omap (fun e : string * fieldState => tempVar e.2) (map_to_list fm)) <-> distinctTemps fm.
Proof.
  rewrite NoDup_omap_iff by apply NoDup_map_to_list. split.
  - intros H k1 k2 fs1 fs2 x E1 E2 T1 T2.
    assert ((k1, fs1) = (k2, fs2)) as [= -> _]; [|done].
    apply (H _ _ x); try done; by apply elem_of_map_to_list.
  - intros H [k1 fs1] [k2 fs2] x E1%elem_of_map_to_list E2%elem_of_map_to_list T1 T2.
    simpl in T1, T2. assert (k1 = k2) as -> by (by eapply H). congruence.
Qed.

(** X13. The literal a conversion function returns has one entry for each
    field of the manifest and no other, whatever the order in which the
    manifest is ranged over: no key is written twice, none is left
    out. *)
Theorem conversion_literal_covers_fields (order : MapOrder) (g : GenerateDTOFromProtoGo)
    (name : string) (fm : gmap string fieldState) (d : Decl) :
  d = fromPBFunction order g name fm \/ d = toPBFunction order g name fm ->
  literalKeys d ≡ₚ fieldKey <$> (map_to_list fm).*1
  /\ NoDup (literalKeys d)
  /\ length (literalKeys d) = size fm.
Proof.
  intros Hd.
  assert (literalKeys d ≡ₚ fieldKey <$> (map_to_list fm).*1) as Hp.
  { destruct Hd as [-> | ->].
    - rewrite (proj2 (fromPBFunction_reading order g name fm)). apply keys_of_order.
    - rewrite (proj2 (toPBFunction_reading order g name fm)). apply keys_of_order. }
  split; [done|]. rewrite Hp. split; [apply NoDup_keys|].
  by rewrite !length_fmap, length_map_to_list.
Qed.

Lemma conversion_literal_covers_fields_witness :
  literalKeys (fromPBFunction mapOrderDefault (testGenerator "") "ListResponse" listFields)
    ≡ₚ fieldKey <$> (map_to_list listFields).*1
  /\ NoDup (literalKeys (fromPBFunction mapOrderDefault (testGenerator "") "ListResponse" listFields))
  /\ length (literalKeys (fromPBFunction mapOrderDefault (testGenerator "") "ListResponse"
                            listFields))
     = size listFields.
Proof.
  apply (conversion_literal_covers_fields mapOrderDefault (testGenerator "") "ListResponse"
           listFields).
  left. reflexivity.
Defined.

(** X14. The variables a conversion function declares with [:=] at the top of
    its body are, up to order, one [m] for each map-of-struct field and
    one [aSlice] for each sequence-of-struct field of the manifest. So
    the body declares no variable twice exactly when the struct has at
    most one map-of-struct field and at most one sequence-of-struct
    field. *)
Theorem conversion_declares_one_variable_per_field (order : MapOrder)
    (g : GenerateDTOFromProtoGo) (name : string) (fm : gmap string fieldState) (d : Decl) :
  d = fromPBFunction order g name fm \/ d = toPBFunction order g name fm ->
  declared d ≡ₚ omap (fun e => tempVar e.2) (map_to_list fm)
  /\ (NoDup (declared d) <-> distinctTemps fm).
Proof.
  intros Hd.
  assert (declared d ≡ₚ omap (fun e => tempVar e.2) (map_to_list fm)) as Hp.
  { destruct Hd as [-> | ->].
    - rewrite (proj1 (fromPBFunction_reading order g name fm)).
      by rewrite (rangeOver_perm order FromPB name fm).
    - rewrite (proj1 (toPBFunction_reading order g name fm)).
      by rewrite (rangeOver_perm order ToPB name fm). }
  split; [done|]. rewrite Hp. apply NoDup_temps.
Qed.

Lemma conversion_declares_one_variable_per_field_witness :
  declared (toPBFunction mapOrderDefault (testGenerator "") "ListResponse" listFields)
    ≡ₚ omap (fun e => tempVar e.2) (map_to_list listFields)
  /\ (NoDup (declared (toPBFunction mapOrderDefault (testGenerator "") "ListResponse" listFields))
      <-> distinctTemps listFields).
Proof.
  apply (conversion_declares_one_variable_per_field mapOrderDefault (testGenerator "")
           "ListResponse" listFields).
  right. reflexivity.
Defined.

(** ** The conversion functions cover the members of their type *)

Section CoverFacts.

Import jen emitted.

Variable JsonTag : string -> string * string.
Variable order : MapOrder.
Variable g : GenerateDTOFromProtoGo.

Lemma foldl_recordField_keeps M l fm k :
  is_Some (fm !! k) -> is_Some (foldl (recordField M) fm l !! k).
Proof.
  revert fm. induction l as [|f l IH]; intros fm H; simpl; [done|].
  apply IH. unfold recordField. destruct (classify M f); [|done].
  destruct (decide (parser.VarName f = k)) as [<-|Hne].
  - by rewrite lookup_insert_eq.
  - by rewrite lookup_insert_ne.
Qed.

Lemma foldl_recordField_adds M l fm f :
  f ∈ l -> is_Some (classify M f) ->
  is_Some (foldl (recordField M) fm l !! parser.VarName f).
Proof.
  revert fm. induction l as [|f' l IH]; intros fm Hf Hc; [by apply elem_of_nil in Hf|].
  simpl. apply elem_of_cons in Hf as [<-|Hf]; [|by apply IH].
  apply foldl_recordField_keeps. unfold recordField. destruct Hc as [fs ->].
  by rewrite lookup_insert_eq.
Qed.

Lemma classify_is_Some M f :
  is_Some (classify M f) <-> is_Some (parseFieldType (parser.VarType f)).
Proof.
  unfold classify. destruct (parseFieldType (parser.VarType f)); simpl; split; eauto.
  all: by intros [? ?].
Qed.

(** The manifest of a struct whose fields are all classified has the
    names of the retained fields as its keys. *)
Lemma fieldManifestOf_keys M vars k :
  (forall f, f ∈ retained vars -> is_Some (parseFieldType (parser.VarType f))) ->
  is_Some (fieldManifestOf M vars !! k) <-> k ∈ parser.VarName <$> retained vars.
Proof.
  intros Hp. unfold fieldManifestOf. split.
  - intros [H|(f & Hf & <-)]%foldl_recordField_key.
    + rewrite lookup_empty in H. by destruct H.
    + by apply list_elem_of_fmap_2.
  - intros (f & -> & Hf)%list_elem_of_fmap.
    apply foldl_recordField_adds; [done|]. by apply classify_is_Some, Hp.
Qed.

Lemma literalKeys_lookup name fm d k :
  d = fromPBFunction order g name fm \/ d = toPBFunction order g name fm ->
  fieldKey k ∈ literalKeys d <-> is_Some (fm !! k).
Proof.
  intros Hd.
  assert (literalKeys d ≡ₚ fieldKey <$> (map_to_list fm).*1) as ->.
  { destruct Hd as [-> | ->].
    - rewrite (proj2 (fromPBFunction_reading order g name fm)). apply keys_of_order.
    - rewrite (proj2 (toPBFunction_reading order g name fm)). apply keys_of_order. }
  rewrite (list_elem_of_fmap_inj fieldKey), list_elem_of_fmap. split.
  - intros ([k' fs] & -> & H%elem_of_map_to_list). by exists fs.
  - intros [fs H]. exists (k, fs). split; [done|]. by apply elem_of_map_to_list.
Qed.

(** A DTO type inside a sequence of units heads the unit of its struct. *)
Lemma units_lookup structures processed i name fields :
  flat_map (unitDecls JsonTag order g structures) processed !! i = Some (DStruct name fields) ->
  exists S, S ∈ processed
    /\ unitDecls JsonTag order g structures S !! 0 = Some (DStruct name fields)
    /\ forall k, k < 6 ->
         flat_map (unitDecls JsonTag order g structures) processed !! (i + k)
         = unitDecls JsonTag order g structures S !! k.
Proof.
  revert i. induction processed as [|S processed IH]; intros i; [done|].
  cbn [flat_map]. intros [Hi|[Hlen Hi]]%lookup_app_Some.
  - pose proof Hi as Hi'. unfold unitDecls in Hi'.
    apply unit_struct_lookup in Hi' as (-> & _ & _).
    exists S. split; [left|]. split; [done|]. intros k Hk.
    apply lookup_app_l. unfold unitDecls. rewrite code_unitEvents. simpl. lia.
  - destruct (IH _ Hi) as (S' & HS' & H0 & Hk). exists S'. split; [by right|]. split; [done|].
    intros k Hk6. rewrite lookup_app_r by lia. rewrite <- (Hk k Hk6). f_equal. lia.
Qed.

End CoverFacts.

(** X15. In the output of a returned run both conversion functions of a DTO
    type assign exactly the members of that type in the literal they
    return: a field is a member of the type if and only if it is a key
    of the literal, in either direction. *)
Theorem conversion_functions_cover_members
    (JsonTag : string -> string * string) (order : MapOrder) (g : GenerateDTOFromProtoGo)
    (fuel : nat) (structures : list parser.Struct) (st : GenState)
    (i : nat) (name : string) (fields : list jen.Code) :
  generateStructs JsonTag order g fuel structures = Ok st ->
  code (log st) !! i = Some (DStruct name fields) ->
  exists fromPB toPB,
    code (log st) !! (i + 1) = Some fromPB
    /\ code (log st) !! (i + 4) = Some toPB
    /\ forall k,
         (k ∈ omap emitted.memberName fields <-> fieldKey k ∈ literalKeys fromPB)
         /\ (k ∈ omap emitted.memberName fields <-> fieldKey k ∈ literalKeys toPB).
Proof.
  intros H Hi.
  destruct (generateStructs_UnitsOf _ _ _ _ _ _ H) as [processed [U1 U2 U3 U4]].
  rewrite U3 in *. destruct i as [|i]; [done|]. simpl in Hi.
  destruct (units_lookup _ _ _ _ _ _ _ _ Hi) as (S & HS & H0 & Hk).
  unfold unitDecls in H0. rewrite code_unitEvents in H0. injection H0 as <- <-.
  set (fm := fieldManifestOf (buildManifest structures) (parser.Vars S)).
  exists (fromPBFunction order g (parser.Name S) fm), (toPBFunction order g (parser.Name S) fm).
  split; [simpl; by rewrite (Hk 1) by lia|]. split; [simpl; by rewrite (Hk 4) by lia|].
  intros k. rewrite memberName_dtoFieldsOf.
  rewrite <- (fieldManifestOf_keys (buildManifest structures)) by (intros f Hf; by eapply U2).
  split; symmetry; eapply literalKeys_lookup; eauto.
Qed.

Lemma conversion_functions_cover_members_witness :
  exists st,
    generateStructs jsonTagModel mapOrderDefault (testGenerator "Envelope") 3 envelopeSchema = Ok st
    /\ exists fromPB toPB,
         code (log st) !! (1 + 1) = Some fromPB
         /\ code (log st) !! (1 + 4) = Some toPB
         /\ forall k,
              (k ∈ omap emitted.memberName (dtoFieldsOf jsonTagModel [var "Label" "string"])
               <-> fieldKey k ∈ literalKeys fromPB)
              /\ (k ∈ omap emitted.memberName (dtoFieldsOf jsonTagModel [var "Label" "string"])
                  <-> fieldKey k ∈ literalKeys toPB).
Proof.
  eexists. split; [vm_compute; reflexivity|].
  apply (conversion_functions_cover_members jsonTagModel mapOrderDefault
           (testGenerator "Envelope") 3 envelopeSchema _ 1 "Item").
  - vm_compute. reflexivity.
  - reflexivity.
Defined.
